(** * SSD-Tensorflow evaluation: metrics, preprocessing factory, driver

    A shallow embedding of
    - [tf_extended/metrics.py]   (module [Metrics]),
    - [preprocessing/preprocessing_factory.py] (module [PreprocessingFactory]),
    - [eval_ssd_network.py]      (module [EvalSSD]).

    Numeric model.  The tensors of [metrics.py] hold [float32] values.  They
    are modelled by exact rationals in canonical form ([Qc]): comparisons,
    selection, sorting and accumulation are those of the code, rounding,
    infinities and NaN are outside the model.  The ground-truth counter is an
    [int64] and is modelled by [Z] with its wrap-around written out.  The
    one double computation of the driver, [math.ceil(a / float(b))] on
    Python integers, is modelled with its rounding ([EvalSSD.to_double]).

    Tensors.  Every tensor that [metrics.py] touches is either a scalar or is
    flattened by [tf.reshape(_, [-1])] before use; a tensor is therefore the
    list of its elements in row-major order and [reshape(_, [-1])] is the
    identity.  An operation of the runtime that rejects its operands (shape
    mismatch, index out of range) returns [None].

    Shapes.  A graph is built once and run many times.  What it knows of
    the shape of a tensor when it is built (the static shape) decides two
    things in [metrics.py]: [tf.size] of a tensor whose static shape is known
    is a constant computed from that shape, and [tf.boolean_mask] compares
    only static shapes.  The boolean [static_shapes] says whether the tensors
    fed to [streaming_precision_recall_arrays] have static shapes (then
    every run feeds tensors of those shapes) or shapes known only when the
    graph runs. *)

From stdpp Require Import base numbers list strings sorting gmap.
From Stdlib Require Import ZArith QArith Qround Qcanon.

Local Open Scope Qc_scope.

(** ** Rationals: literals and evaluation *)

(** The rational [a / b] in canonical form. *)
Definition qc (a : Z) (b : positive) : Qc := Q2Qc (a # b).

(** Closed equalities over [Qc] (and lists, pairs, options of them) are
    decided by evaluation of the decision procedure. *)
Ltac qc_eval := apply (bool_decide_unpack _); vm_compute; reflexivity.

(** ** [tf_extended/metrics.py] *)

Module Metrics.

(** *** Runtime primitives used by the module *)

(** [tf.where(mask)] on a vector: the positions of its true entries, in
    increasing order. *)
Fixpoint where_from (i : nat) (mask : list bool) : list nat :=
  match mask with
  | [] => []
  | b :: mask' =>
      if b then i :: where_from (S i) mask' else where_from (S i) mask'
  end.

Definition where_true (mask : list bool) : list nat := where_from 0 mask.

Section Primitives.
Context {A : Type}.

(** [tf.reshape(t, [-1])] on a tensor given by its row-major elements. *)
Definition reshape_flat (t : list A) : list A := t.

(** [tf.gather(params, indices)] on the first axis; an index outside
    [0, size) is rejected. *)
Definition gather (params : list A) (indices : list nat) : option (list A) :=
  mapM (λ i, params !! i) indices.

(** [tf.boolean_mask(tensor, mask)] for 1-D operands.  The function
    compares the two shapes while the graph is built, which rejects a
    mismatch only between shapes known then; the operation it builds
    gathers the elements of the tensor at the true positions of the mask
    and does not compare the two sizes. *)
Definition boolean_mask (static_shapes : bool) (tensor : list A)
    (mask : list bool) : option (list A) :=
  if static_shapes && negb (bool_decide (length tensor = length mask))
  then None
  else gather tensor (where_true mask).
End Primitives.

(** Stable insertion by descending key: the new entry goes in front of the
    first entry whose key is not larger. *)
Fixpoint insert_desc {A} (x : Qc * A) (l : list (Qc * A)) : list (Qc * A) :=
  match l with
  | [] => [x]
  | y :: l' => if decide (x.1 < y.1) then y :: insert_desc x l' else x :: y :: l'
  end.

Definition sort_desc {A} (l : list (Qc * A)) : list (Qc * A) :=
  foldr insert_desc [] l.

(** [tf.nn.top_k(input, k=tf.size(input), sorted=True)] on a vector: all
    values in descending order together with their positions; among equal
    values the lower position comes first. *)
Definition top_k (input : list Qc) : list Qc * list nat :=
  let s := sort_desc (zip input (seq 0 (length input))) in (s.*1, s.*2).

(** [tf.nn.top_k(input, k, sorted=True)] for a constant [k]: the first [k]
    entries of that order; an input of fewer than [k] elements is
    rejected. *)
Definition top_k_static (k : nat) (input : list Qc)
    : option (list Qc * list nat) :=
  if decide (k ≤ length input)%nat then
    let '(values, indices) := top_k input in
    Some (take k values, take k indices)
  else None.

(** [tf.cumsum(x, axis=0)]. *)
Fixpoint cumsum_from (acc : Qc) (x : list Qc) : list Qc :=
  match x with
  | [] => []
  | v :: x' => (acc + v) :: cumsum_from (acc + v) x'
  end.

Definition cumsum (x : list Qc) : list Qc := cumsum_from 0 x.

(** [tf.reduce_sum] over all elements. *)
Definition reduce_sum (x : list Qc) : Qc := foldr Qcplus 0 x.

(** Element-wise binary operation on two vectors with the broadcasting rule
    of the runtime: equal sizes, or one operand of size one. *)
Definition elementwise (f : Qc → Qc → Qc) (a b : list Qc) : option (list Qc) :=
  if decide (length a = length b) then Some (zip_with f a b)
  else match a, b with
       | [x], _ => Some (f x <$> b)
       | _, [y] => Some ((λ x, f x y) <$> a)
       | _, _ => None
       end.

(** *** [_safe_div] *)

(** One element of
    [tf.where(greater(denominator, 0), divide(numerator, denominator),
              zeros_like(numerator))]. *)
Definition safe_div_elem (numerator denominator : Qc) : Qc :=
  if decide (0 < denominator) then numerator / denominator else 0.

(** [_safe_div(numerator, denominator, name)].  The numerator is a vector;
    the denominator is a scalar (left) or a vector of the same shape
    (right), the two shapes at which the module calls it. *)
Definition _safe_div (numerator : list Qc) (denominator : Qc + list Qc)
    : option (list Qc) :=
  match denominator with
  | inl d => Some ((λ n, safe_div_elem n d) <$> numerator)
  | inr ds =>
      if decide (length numerator = length ds)
      then Some (zip_with safe_div_elem numerator ds) else None
  end.

(** *** [_precision_recall] *)

(** [_precision_recall(n_gbboxes, scores, tp, fp)]: the pair
    [(precision, recall)] of [tf.tuple], on a [scores] tensor whose size
    is read when the graph runs: [k = tf.size(scores)] is the number of
    its elements. *)
Definition _precision_recall (n_gbboxes : Z) (scores tp fp : list Qc)
    : option (list Qc * list Qc) :=
  (* Sort by score. *)
  let '(scores, idxes) := top_k scores in
  tp ← gather tp idxes;
  fp ← gather fp idxes;
  (* Compute recall and precision. *)
  let tp := cumsum tp in
  let fp := cumsum fp in
  recall ← _safe_div tp (inl (Qc_of_Z n_gbboxes));
  tp_fp ← elementwise Qcplus tp fp;
  precision ← _safe_div tp (inr tp_fp);
  Some (precision, recall).

(** The same function in a graph that knows a static shape of [scores]:
    [tf.size(scores)] is then the constant [size] computed from that shape
    when the graph is built, whatever the tensor holds when the graph
    runs. *)
Definition _precision_recall_static (size : nat) (n_gbboxes : Z)
    (scores tp fp : list Qc) : option (list Qc * list Qc) :=
  (* Sort by score. *)
  '(scores, idxes) ← top_k_static size scores;
  tp ← gather tp idxes;
  fp ← gather fp idxes;
  (* Compute recall and precision. *)
  let tp := cumsum tp in
  let fp := cumsum fp in
  recall ← _safe_div tp (inl (Qc_of_Z n_gbboxes));
  tp_fp ← elementwise Qcplus tp fp;
  precision ← _safe_div tp (inr tp_fp);
  Some (precision, recall).

(** *** [streaming_precision_recall_arrays] *)

(** [int64] arithmetic of the ground-truth counter. *)
Definition wrap64 (z : Z) : Z := ((z + 2 ^ 63) `mod` 2 ^ 64 - 2 ^ 63)%Z.

Definition reduce_sum64 (x : list Z) : Z :=
  foldr (λ v acc, wrap64 (v + acc)) 0%Z x.

(** The local variables [v_nobjects] (created under the name ['v_tp'], an
    [int64] scalar), [v_scores], [v_tp], [v_fp].  The three arrays are
    declared with shape [[0]] and assigned with [validate_shape=False]:
    they hold arrays of any size, and their static shape stays [(0,)]. *)
Record accumulators := Accumulators {
  v_nobjects : Z;
  v_scores : list Qc;
  v_tp : list Qc;
  v_fp : list Qc;
}.

(** [_create_local]: every variable starts as zeros of its shape. *)
Definition initial : accumulators :=
  {| v_nobjects := 0; v_scores := []; v_tp := []; v_fp := [] |}.

(** The tensors fed to one run of the update operation, after the casts of
    lines 130-134. *)
Record batch := Batch {
  n_gbboxes : list Z;
  rclasses : list Z;
  rscores : list Qc;
  tp_tensor : list Qc;
  fp_tensor : list Qc;
}.

(** Lines 135-145: reshape and clean away the 0 classes.  Line 139 reshapes
    [tp_tensor] into [fp_tensor].  The four results are four tensors of the
    graph, each computed, and rejected, on its own. *)
Definition preprocess (static_shapes remove_zero_labels : bool) (b : batch)
    : option (list Z) * option (list Qc) * option (list Qc)
      * option (list Qc) :=
  let rclasses := reshape_flat (rclasses b) in
  let rscores := reshape_flat (rscores b) in
  let tp_tensor := reshape_flat (tp_tensor b) in
  let fp_tensor := reshape_flat tp_tensor in
  if remove_zero_labels then
    let mask := (λ c, bool_decide (0 < c)%Z) <$> rclasses in
    let rclasses := boolean_mask static_shapes rclasses mask in
    let rscores := boolean_mask static_shapes rscores mask in
    let tp_tensor := boolean_mask static_shapes tp_tensor mask in
    let fp_tensor := boolean_mask static_shapes fp_tensor mask in
    (rclasses, rscores, tp_tensor, fp_tensor)
  else (Some rclasses, Some rscores, Some tp_tensor, Some fp_tensor).

(** The update operations, lines 154-161: what each of them assigns to its
    variable and returns. *)
Definition nobjects_op (b : batch) (s : accumulators) : Z :=
  wrap64 (v_nobjects s + reduce_sum64 (n_gbboxes b)).

Definition scores_op (static_shapes remove_zero_labels : bool) (b : batch)
    (s : accumulators) : option (list Qc) :=
  let '(_, rscores, _, _) := preprocess static_shapes remove_zero_labels b in
  rscores ← rscores; Some (v_scores s ++ rscores).

Definition tp_op (static_shapes remove_zero_labels : bool) (b : batch)
    (s : accumulators) : option (list Qc) :=
  let '(_, _, tp_tensor, _) := preprocess static_shapes remove_zero_labels b in
  tp_tensor ← tp_tensor; Some (v_tp s ++ tp_tensor).

Definition fp_op (static_shapes remove_zero_labels : bool) (b : batch)
    (s : accumulators) : option (list Qc) :=
  let '(_, _, _, fp_tensor) := preprocess static_shapes remove_zero_labels b in
  fp_tensor ← fp_tensor; Some (v_fp s ++ fp_tensor).

(** The variables after the four assignments [nobjects_op], [scores_op],
    [tp_op], [fp_op] of one run, when each of them succeeds. *)
Definition assign_ops (static_shapes remove_zero_labels : bool) (b : batch)
    (s : accumulators) : option accumulators :=
  scores ← scores_op static_shapes remove_zero_labels b s;
  tp ← tp_op static_shapes remove_zero_labels b s;
  fp ← fp_op static_shapes remove_zero_labels b s;
  Some {| v_nobjects := nobjects_op b s;
          v_scores := scores;
          v_tp := tp;
          v_fp := fp |}.

(** The value tensor [r], line 165: [_precision_recall] on the variables
    themselves.  The static shape of [v_scores] is [(0,)], so
    [tf.size(scores)] is the constant 0 there. *)
Definition value_op (s : accumulators) : option (list Qc * list Qc) :=
  _precision_recall_static 0 (v_nobjects s) (v_scores s) (v_tp s) (v_fp s).

(** The static size of the tensor [scores_op], where the graph knows it:
    the declared size 0 of [v_scores] plus the static size of [rscores].
    The result of [tf.boolean_mask] has no static size. *)
Definition scores_op_size (static_shapes remove_zero_labels : bool)
    (b : batch) : option nat :=
  if static_shapes && negb remove_zero_labels
  then Some (0 + length (reshape_flat (rscores b)))%nat
  else None.

(** The update tensor [update_op], lines 166-168: the four assignments,
    then [_precision_recall] on what they return.  [None]: the run
    raises. *)
Definition update_op (static_shapes remove_zero_labels : bool) (b : batch)
    (s : accumulators) : option (accumulators * (list Qc * list Qc)) :=
  s' ← assign_ops static_shapes remove_zero_labels b s;
  r ← match scores_op_size static_shapes remove_zero_labels b with
      | Some size =>
          _precision_recall_static size
            (v_nobjects s') (v_scores s') (v_tp s') (v_fp s')
      | None =>
          _precision_recall (v_nobjects s') (v_scores s') (v_tp s') (v_fp s')
      end;
  Some (s', r).

(** The variables after a run of [update_op] that raises.  When the four
    assignments succeed, the computation of the curve waits for them
    (line 166), so all four have happened.  Otherwise, with static shapes
    the mismatch is found while the graph is built and nothing is
    assigned; with shapes known at run time the four assignments are
    independent operations of one run, and each variable holds its
    previous contents or, if its own assignment succeeds, the assigned
    ones. *)
Definition after_raise (static_shapes remove_zero_labels : bool) (b : batch)
    (s s' : accumulators) : Prop :=
  update_op static_shapes remove_zero_labels b s = None ∧
  match assign_ops static_shapes remove_zero_labels b s with
  | Some s1 => s' = s1
  | None =>
      if static_shapes then s' = s
      else
        (v_nobjects s' = v_nobjects s ∨ v_nobjects s' = nobjects_op b s) ∧
        (v_scores s' = v_scores s ∨
         scores_op static_shapes remove_zero_labels b s = Some (v_scores s')) ∧
        (v_tp s' = v_tp s ∨
         tp_op static_shapes remove_zero_labels b s = Some (v_tp s')) ∧
        (v_fp s' = v_fp s ∨
         fp_op static_shapes remove_zero_labels b s = Some (v_fp s'))
  end.

(** A sequence of runs of [update_op], one per batch, each of which
    returns: the variables it ends with.  The first run that raises ends
    the sequence ([None]). *)
Fixpoint run_updates (static_shapes remove_zero_labels : bool)
    (bs : list batch) (s : accumulators) : option accumulators :=
  match bs with
  | [] => Some s
  | b :: bs' =>
      '(s', _) ← update_op static_shapes remove_zero_labels b s;
      run_updates static_shapes remove_zero_labels bs' s'
  end.

(** The same sequence of runs, together with what its last run returned
    ([r] when there is no run). *)
Fixpoint run_updates_returning (static_shapes remove_zero_labels : bool)
    (bs : list batch) (s : accumulators) (r : list Qc * list Qc)
    : option (accumulators * (list Qc * list Qc)) :=
  match bs with
  | [] => Some (s, r)
  | b :: bs' =>
      '(s', r') ← update_op static_shapes remove_zero_labels b s;
      run_updates_returning static_shapes remove_zero_labels bs' s' r'
  end.

(** *** [average_precision] *)

Definition Qc_max (a b : Qc) : Qc := if decide (a ≤ b) then b else a.
Definition Qc_min (a b : Qc) : Qc := if decide (a ≤ b) then a else b.

(** Modelled from the spec: [tfe.cummax(x, reverse=True)], defined in
    [tf_extended/math.py], which is not among the sources.  Section 6.3:
    "produces the running maximum scanned from the end of a sequence
    backward". *)
Fixpoint cummax_reverse (x : list Qc) : list Qc :=
  match x with
  | [] => []
  | v :: x' =>
      match cummax_reverse x' with
      | [] => [v]
      | m :: r => Qc_max v m :: m :: r
      end
  end.

(** The slices [x[1:]] and [x[:-1]]. *)
Definition slice_from_1 {A} (x : list A) : list A := drop 1 x.
Definition slice_to_last {A} (x : list A) : list A := take (length x - 1) x.

Definition average_precision (precision recall : list Qc) : option Qc :=
  (* Add bounds values to precision and recall. *)
  let precision := [0] ++ precision ++ [0] in
  let recall := [0] ++ recall ++ [1] in
  (* Ensures precision is increasing in reverse order. *)
  let precision := cummax_reverse precision in
  (* Riemann sum for estimating the integral. *)
  sum_pre ← elementwise Qcplus (slice_from_1 precision) (slice_to_last precision);
  let mean_pre := (λ v, v / 2) <$> sum_pre in
  diff_rec ← elementwise Qcminus (slice_from_1 recall) (slice_to_last recall);
  prod ← elementwise Qcmult mean_pre diff_rec;
  Some (reduce_sum prod).

(** *** [precision_recall_values] *)

(** The result of a [min] reduction: a value, or, over an empty tensor, the
    identity of [min] (the highest value of the element type), which is not
    a rational. *)
Inductive reduced := Value (v : Qc) | Highest.

Global Instance reduced_eq_dec : EqDecision reduced.
Proof. solve_decision. Defined.

Definition reduce_min (x : list Qc) : reduced :=
  match x with
  | [] => Highest
  | v :: x' => Value (foldr Qc_min v x')
  end.

(** [tf.cast(mask, dtype)] from booleans to floats. *)
Definition cast_float (b : bool) : Qc := if b then 1 else 0.

Definition precision_recall_values (xvals precision recall : list Qc)
    : option (list reduced) :=
  mapM (λ x,
    let mask := (λ r, bool_decide (r ≤ x)) <$> recall in
    masked ← elementwise Qcmult precision (cast_float <$> mask);
    Some (reduce_min masked)) xvals.

End Metrics.

(** ** Python exceptions raised by the two scripts *)

Inductive exn :=
  | ValueError (msg : string)
  | KeyError (key : string)
  | TypeError
  | ZeroDivisionError
  | OverflowError
  | External (msg : string)  (* raised by a collaborator outside the sources *).

(** A computation that returns or raises. *)
Definition result (A : Type) : Type := exn + A.

(** ** [preprocessing/preprocessing_factory.py] *)

Module PreprocessingFactory.

(** The two imported preprocessing modules. *)
Inductive family := vgg_preprocessing | inception_preprocessing.

Definition preprocessing_fn_map : gmap string family :=
  list_to_map [
    ("vgg", vgg_preprocessing);
    ("vgg_a", vgg_preprocessing);
    ("vgg_16", vgg_preprocessing);
    ("vgg_19", vgg_preprocessing);
    ("inception_v3", inception_preprocessing);
    ("inception_resnet_v2", inception_preprocessing);
    ("xception", inception_preprocessing);
    ("xception_keras", inception_preprocessing);
    ("dception", inception_preprocessing);
    ("ssd_300_vgg", vgg_preprocessing)
  ].

(** ['Preprocessing name [%s] was not recognized' % name] *)
Definition not_recognized (name : string) : string :=
  "Preprocessing name [" +:+ name +:+ "] was not recognized".

Section Factory.
(** An image, the keyword arguments passed through, and what a family's
    [preprocess_image] returns. *)
Context {Image Kwargs Out : Type}.

(** [m.preprocess_image(image, output_height, output_width,
    is_training=..., **kwargs)] of the imported module [m]; both modules
    are outside the sources. *)
Variable preprocess_image : family → Image → Z → Z → bool → Kwargs → Out.

(** The signature of the returned [preprocessing_fn]. *)
Definition preprocessing_fn_type : Type :=
  Image → Z → Z → Kwargs → result Out.

Definition get_preprocessing (name : string) (is_training : bool)
    : result preprocessing_fn_type :=
  if decide (name ∉ dom preprocessing_fn_map) then
    inl (ValueError (not_recognized name))
  else
    inr (λ image output_height output_width kwargs,
           match preprocessing_fn_map !! name with
           | Some m =>
               inr (preprocess_image m image output_height output_width
                      is_training kwargs)
           | None => inl (KeyError name)
           end).
End Factory.

(** The returned function is declared
    [def preprocessing_fn(image, output_height, output_width, **kwargs)]:
    three positional parameters and no [*args]. *)
Definition preprocessing_fn_positional : nat := 3.

(** Binding the arguments of a call of [preprocessing_fn] that passes
    [given] positional arguments and no keyword argument.  Python binds
    them before the body runs and raises [TypeError] when there are more
    than the positional parameters, or fewer. *)
Definition bind_positional (given : nat) : result unit :=
  if decide (given = preprocessing_fn_positional) then inr tt
  else inl TypeError.

End PreprocessingFactory.

(** ** [eval_ssd_network.py] *)

Module EvalSSD.

(** The flags of the script with their declared types; a flag whose default
    is [None] is optional. *)
Record flags := Flags {
  num_classes : Z;
  batch_size : Z;
  max_num_batches : option Z;
  master : string;
  checkpoint_path : string;
  eval_dir : string;
  num_preprocessing_threads : Z;
  dataset_name : string;
  dataset_split_name : string;
  dataset_dir : option string;
  labels_offset : Z;
  model_name : string;
  preprocessing_name : option string;
  moving_average_decay : option Qc;
  eval_image_size : option Z;
}.

(** The declared defaults. *)
Definition default_flags : flags := {|
  num_classes := 21;
  batch_size := 100;
  max_num_batches := None;
  master := EmptyString;
  checkpoint_path := "/tmp/tfmodel/";
  eval_dir := "/tmp/tfmodel/";
  num_preprocessing_threads := 4;
  dataset_name := "imagenet";
  dataset_split_name := "test";
  dataset_dir := None;
  labels_offset := 0;
  model_name := "inception_v3";
  preprocessing_name := None;
  moving_average_decay := None;
  eval_image_size := None;
|}.

(** Python truth values of an optional integer, string and float. *)
Definition truthy_int (v : option Z) : bool :=
  match v with Some n => negb (n =? 0)%Z | None => false end.

Definition truthy_str (v : option string) : bool :=
  match v with Some s => negb (String.eqb s EmptyString) | None => false end.

Definition truthy_float (v : option Qc) : bool :=
  match v with Some x => negb (bool_decide (x = 0)) | None => false end.

(** *** Doubles

    Python's [float] is the IEEE 754 binary64 format: 53 significant bits,
    exponents from -1022 to 1023, results rounded to the nearest
    representable value, ties to the even one.  A double is modelled by the
    rational it denotes. *)

(** The power [2 ^ e] for an integer exponent. *)
Definition pow2 (e : Z) : Qc :=
  if decide (0 ≤ e)%Z then Qc_of_Z (2 ^ e) else / Qc_of_Z (2 ^ (- e)).

Definition Qc_abs (q : Qc) : Qc := if decide (0 ≤ q) then q else - q.

(** The exponent [e] with [2 ^ e ≤ |q| < 2 ^ (e + 1)], for [q] not 0. *)
Definition binade (q : Qc) : Z :=
  let e := (Z.log2 (Z.abs (Qnum q)) - Z.log2 (Zpos (Qden q)))%Z in
  if decide (pow2 e ≤ Qc_abs q) then e else (e - 1)%Z.

(** The nearest integer, ties to the even one. *)
Definition round_half_even (q : Qc) : Z :=
  let f := Qfloor q in
  let r := q - Qc_of_Z f in
  if decide (r < qc 1 2) then f
  else if decide (qc 1 2 < r) then (f + 1)%Z
  else if Z.even f then f else (f + 1)%Z.

(** The double nearest to a rational: a multiple of the spacing of the
    doubles around it, which is [2 ^ (e - 52)] in the binade [e] and
    [2 ^ -1074] below [2 ^ -1022].  [None]: the rounded value is beyond the
    largest double. *)
Definition to_double (q : Qc) : option Qc :=
  if decide (q = 0) then Some 0
  else
    let e := Z.max (binade q) (-1022) in
    let ulp := pow2 (e - 52) in
    let r := Qc_of_Z (round_half_even (q / ulp)) * ulp in
    if decide (Qc_abs r < pow2 1024) then Some r else None.

(** [math.ceil(a / float(b))] on integers [a] and [b].  [float(b)] converts
    the divisor, the division converts the dividend, and either
    conversion raises [OverflowError] on an integer beyond the doubles; a
    zero divisor raises; the quotient is rounded to a double before its
    ceiling is taken. *)
Definition ceil_div (a b : Z) : result Z :=
  match to_double (Qc_of_Z b) with
  | None => inl OverflowError
  | Some fb =>
      match to_double (Qc_of_Z a) with
      | None => inl OverflowError
      | Some fa =>
          if decide (fb = 0) then inl ZeroDivisionError
          else match to_double (fa / fb) with
               | Some q => inr (Qceiling q)
               | None => inl OverflowError
               end
      end
  end.

(** Lines 238-242, "Number of batches...". *)
Definition num_batches (FLAGS : flags) (num_samples : Z) : result Z :=
  if truthy_int (max_num_batches FLAGS) then
    inr (default 0%Z (max_num_batches FLAGS))
  else
    ceil_div num_samples (batch_size FLAGS).

(** What [main] constructs and runs, in program order. *)
Inductive event :=
  | SetVerbosity
  | GlobalStep
  | GetDataset (name split dir : string)
  | GetNetwork (name : string)
  | GetPreprocessing (name : string)
  | DataProvider (queue_capacity queue_min : Z)
  | TrainBatch (size threads capacity : Z)
  | NetworkOutputs
  | DetectedBboxes
  | BboxesMatching
  | VariablesToRestore (moving_average : bool)
  | StreamingMetric (name : string)
  | Summary (name : string)
  | EvaluateOnce (checkpoint : string) (num_evals : Z)
  | PrintTime.

(** [main] threads the list of events so far and stops at the first
    exception. *)
Definition M (A : Type) : Type := list event → list event * result A.

Global Instance M_ret : MRet M := λ A a tr, (tr, inr a).
Global Instance M_bind : MBind M := λ A B k m tr,
  match m tr with
  | (tr', inr a) => k a tr'
  | (tr', inl e) => (tr', inl e)
  end.

Definition raise {A} (e : exn) : M A := λ tr, (tr, inl e).
Definition emit (ev : event) : M unit := λ tr, (tr ++ [ev], inr tt).
Definition lift {A} (r : result A) : M A := λ tr, (tr, r).

Section Driver.
(** The collaborators outside the sources: the dataset factory (its result
    is the dataset's [num_samples]), the network factory, the file-system
    test and the checkpoint lookup. *)
Variable get_dataset : string → string → string → result Z.
Variable get_network : string → result unit.
Variable is_directory : string → bool.
Variable latest_checkpoint : string → string.

(** The 22 entries of [LIST_RECALLS], as printed by ['%.2f']. *)
Definition LIST_RECALLS : list string :=
  ["0.10"; "0.20"; "0.30"; "0.40"; "0.50"; "0.60"; "0.70"; "0.80"; "0.85";
   "0.87"; "0.88"; "0.89"; "0.90"; "0.91"; "0.92"; "0.93"; "0.94"; "0.95";
   "0.96"; "0.97"; "0.98"; "0.99"].

Fixpoint emit_all (evs : list event) : M unit :=
  match evs with
  | [] => mret tt
  | ev :: evs' => emit ev;; emit_all evs'
  end.

Definition main (FLAGS : flags) : M unit :=
  if negb (truthy_str (dataset_dir FLAGS)) then
    raise (ValueError "You must supply the dataset directory with --dataset_dir")
  else
    emit SetVerbosity;;
    emit GlobalStep;;
    (* Dataset + SSD model + Pre-processing *)
    let dir := default EmptyString (dataset_dir FLAGS) in
    emit (GetDataset (dataset_name FLAGS) (dataset_split_name FLAGS) dir);;
    num_samples ← lift (get_dataset (dataset_name FLAGS)
                          (dataset_split_name FLAGS) dir);
    emit (GetNetwork (model_name FLAGS));;
    lift (get_network (model_name FLAGS));;
    let preprocessing_name :=
      if truthy_str (preprocessing_name FLAGS)
      then default EmptyString (preprocessing_name FLAGS) else model_name FLAGS in
    emit (GetPreprocessing preprocessing_name);;
    lift (PreprocessingFactory.get_preprocessing
            (λ _ (_ : unit) _ _ _ (_ : unit), tt) preprocessing_name false);;
    (* Create a dataset provider and batches. *)
    emit (DataProvider (2 * batch_size FLAGS) (batch_size FLAGS));;
    (* Pre-processing image, labels and bboxes, line 132:
       [image_preprocessing_fn(image, glabels, gbboxes, ssd_shape)]. *)
    lift (PreprocessingFactory.bind_positional 4);;
    emit (TrainBatch (batch_size FLAGS) (num_preprocessing_threads FLAGS)
            (5 * batch_size FLAGS));;
    (* SSD Network + Outputs decoding. *)
    emit NetworkOutputs;;
    emit DetectedBboxes;;
    emit BboxesMatching;;
    emit (VariablesToRestore (truthy_float (moving_average_decay FLAGS)));;
    (* Evaluation metrics. *)
    emit (StreamingMetric "precision_recall");;
    emit_all ((λ r, Summary ("eval/precision_at_recall_" +:+ r)) <$> LIST_RECALLS);;
    emit (Summary "eval/average_precision");;
    (* Evaluation loop. *)
    num_batches ← lift (num_batches FLAGS num_samples);
    let checkpoint_path :=
      if is_directory (checkpoint_path FLAGS)
      then latest_checkpoint (checkpoint_path FLAGS)
      else checkpoint_path FLAGS in
    emit (EvaluateOnce checkpoint_path num_batches);;
    (* Log time spent: [elapsed / num_batches], a double divided by an
       integer. *)
    match to_double (Qc_of_Z num_batches) with
    | None => raise OverflowError
    | Some divisor =>
        if decide (divisor = 0) then raise ZeroDivisionError
        else emit PrintTime
    end.
End Driver.

End EvalSSD.

(** ** The specification's statements, and notions used to state the facts *)

Module Spec.

(** Section 4.1, the lookup table in the words of the specification: five
    names of the VGG family, five of the Inception family. *)
Definition vgg_names : list string :=
  ["vgg"; "vgg_a"; "vgg_16"; "vgg_19"; "ssd_300_vgg"].

Definition inception_names : list string :=
  ["inception_v3"; "inception_resnet_v2"; "xception"; "xception_keras";
   "dception"].

Definition family_of (name : string) : option PreprocessingFactory.family :=
  if decide (name ∈ vgg_names) then Some PreprocessingFactory.vgg_preprocessing
  else if decide (name ∈ inception_names)
       then Some PreprocessingFactory.inception_preprocessing
       else None.


(** Descending order of the keys of scored entries, weak and strict. *)
Definition key_ge {A} : relation (Qc * A) := λ x y, y.1 ≤ x.1.
Definition key_gt {A} : relation (Qc * A) := λ x y, y.1 < x.1.

(** The element of a tensor at a position (0 outside the tensor). *)
Definition at_index (t : list Qc) (i : nat) : Qc := default 0 (t !! i).

(** The sum of a sequence, accumulated from its start. *)
Definition total (t : list Qc) : Qc := foldl Qcplus 0 t.


(** Section 4.3.1: the values of the detections whose predicted class id
    is positive, in order. *)
Definition kept_by_class {A} (rclasses : list Z) (values : list A) : list A :=
  (filter (λ cv, (0 < cv.1)%Z) (zip rclasses values)).*2.

(** The same batch with another [fp_tensor] argument. *)
Definition with_fp (b : Metrics.batch) (fp : list Qc) : Metrics.batch :=
  Metrics.Batch (Metrics.n_gbboxes b) (Metrics.rclasses b) (Metrics.rscores b)
    (Metrics.tp_tensor b) fp.

(** Section 4.3.2 in the words of the specification: the curve with the two
    synthetic end points. *)
Definition padded_precision (precision : list Qc) : list Qc :=
  [0] ++ precision ++ [0].

Definition padded_recall (recall : list Qc) : list Qc := [0] ++ recall ++ [1].

(** "each precision value becomes the maximum of itself and all precision
    values" that follow it: the maximum over the positions from [i] on. *)
Definition envelope_at (x : list Qc) (i : nat) : Qc :=
  match drop i x with
  | [] => 0
  | v :: rest => foldl Metrics.Qc_max v rest
  end.

(** "for each adjacent pair of points, multiply the arithmetic mean of their
    two (enveloped) precision values by the difference in their recall
    values, and sum across all pairs". *)
Definition riemann_term (P R : list Qc) (i : nat) : Qc :=
  (envelope_at P i + envelope_at P (S i)) / 2 * (at_index R (S i) - at_index R i).

Definition riemann_sum (precision recall : list Qc) : Qc :=
  total (riemann_term (padded_precision precision) (padded_recall recall)
           <$> seq 0 (length precision + 1)).

(** Section 4.3.1, "each update appends the current batch's scores/flags to
    the end of the existing sequence" and adds its ground-truth counts, for
    [remove_zero_labels] disabled. *)
Definition appended (s : Metrics.accumulators) (b : Metrics.batch)
    : Metrics.accumulators :=
  {| Metrics.v_nobjects :=
       Metrics.wrap64 (Metrics.v_nobjects s
                       + Metrics.reduce_sum64 (Metrics.n_gbboxes b));
     Metrics.v_scores := Metrics.v_scores s ++ Metrics.rscores b;
     Metrics.v_tp := Metrics.v_tp s ++ Metrics.tp_tensor b;
     Metrics.v_fp := Metrics.v_fp s ++ Metrics.tp_tensor b |}.

(** Section 4.3.1, "Value derivation": the curve over all the detections
    accumulated in the variables, one point per detection. *)
Definition accumulated_curve (s : Metrics.accumulators)
    : option (list Qc * list Qc) :=
  Metrics._precision_recall (Metrics.v_nobjects s) (Metrics.v_scores s)
    (Metrics.v_tp s) (Metrics.v_fp s).

(** A batch whose flags have the shape of its scores. *)
Definition well_shaped (b : Metrics.batch) : Prop :=
  length (Metrics.tp_tensor b) = length (Metrics.rscores b).

(** The accumulated flag arrays have the shape of the accumulated scores. *)
Definition aligned (s : Metrics.accumulators) : Prop :=
  length (Metrics.v_tp s) = length (Metrics.v_scores s) ∧
  length (Metrics.v_fp s) = length (Metrics.v_scores s).

(** Batches that one graph can be fed: with static shapes every batch has
    the number of scores the graph was built for. *)
Definition conforming (static_shapes : bool) (bs : list Metrics.batch)
    : Prop :=
  static_shapes = true →
  ∃ size, Forall (λ b, length (Metrics.rscores b) = size) bs.

(** Section 4.3.3, "the minimum precision value among all curve points
    whose recall is ≤ x". *)
Definition min_precision_at (x : Qc) (precision recall : list Qc)
    : Metrics.reduced :=
  Metrics.reduce_min (filter (λ pr, pr.2 ≤ x) (zip precision recall)).*1.

(** Section 4.2, "if the configured checkpoint path is a directory, use its
    most recent checkpoint; otherwise treat the configured path as the
    checkpoint file directly". *)
Definition resolved_checkpoint (is_directory : string → bool)
    (latest_checkpoint : string → string) (FLAGS : EvalSSD.flags) : string :=
  if is_directory (EvalSSD.checkpoint_path FLAGS)
  then latest_checkpoint (EvalSSD.checkpoint_path FLAGS)
  else EvalSSD.checkpoint_path FLAGS.

(** A batch whose scores and flags have the shape of its classes. *)
Definition one_shape (b : Metrics.batch) : Prop :=
  length (Metrics.rscores b) = length (Metrics.rclasses b) ∧
  length (Metrics.tp_tensor b) = length (Metrics.rclasses b).

(** The positions of the detections of a positive class lie within a
    tensor. *)
Definition covers_positive {A} (rclasses : list Z) (tensor : list A) : Prop :=
  ∀ i c, rclasses !! i = Some c → (0 < c)%Z → (i < length tensor)%nat.

(** The sum of the ground-truth counts of all batches, as an integer. *)
Definition ground_truth_total (bs : list Metrics.batch) : Z :=
  foldr Z.add 0%Z (bs ≫= Metrics.n_gbboxes).

(** [FLAGS.preprocessing_name or FLAGS.model_name]: the preprocessing name
    when it is given and not empty, else the model name. *)
Definition resolved_preprocessing_name (FLAGS : EvalSSD.flags) : string :=
  match EvalSSD.preprocessing_name FLAGS with
  | Some name => if decide (name = EmptyString) then EvalSSD.model_name FLAGS
                 else name
  | None => EvalSSD.model_name FLAGS
  end.

End Spec.

(** ** Concrete inputs used in examples *)

Module Examples.

(** The flags of a run that sets only [max_num_batches] and the dataset
    directory. *)
Definition flags_with_max (n : option Z) : EvalSSD.flags :=
  EvalSSD.Flags 21 100 n EmptyString "/tmp/tfmodel/" "/tmp/tfmodel/" 4 "pascalvoc_2007"
    "test" (Some "/data/voc") 0 "ssd_300_vgg" None None None.

(** Three detections, the second of class 0, with disjoint flags. *)
Definition mixed_batch : Metrics.batch :=
  Metrics.Batch [2%Z] [1%Z; 0%Z; 2%Z] [qc 9 10; qc 8 10; qc 7 10]
    [1; 0; 0] [0; 0; 1].

(** Two batches of one detection each, with the same score; the first
    detection is a true positive, the second is not. *)
Definition tied_hit : Metrics.batch :=
  Metrics.Batch [1%Z] [1%Z] [qc 1 2] [1] [0].
Definition tied_miss : Metrics.batch :=
  Metrics.Batch [1%Z] [1%Z] [qc 1 2] [0] [1].

(** One image with two ground-truth boxes and two detections, both true
    positives. *)
Definition two_hits : Metrics.batch :=
  Metrics.Batch [2%Z] [1%Z; 1%Z] [qc 9 10; qc 8 10] [1; 1] [0; 0].

(** Two detections of a positive class, one score too few. *)
Definition short_scores : Metrics.batch :=
  Metrics.Batch [2%Z] [1%Z; 1%Z] [qc 9 10] [1; 1] [0; 0].

End Examples.

(** * Part II: facts *)

(** ** Facts about the runtime primitives *)

Section PrimitiveFacts.
Import Metrics.
Context {A : Type}.
Implicit Types (x y : Qc * A) (l : list (Qc * A)).

Local Abbreviation key_ge := (@Spec.key_ge A).
Local Abbreviation key_gt := (@Spec.key_gt A).

Global Instance key_ge_trans : Transitive key_ge.
Proof. intros x y z Hxy Hyz. unfold Spec.key_ge in *. by etrans. Qed.

Lemma insert_desc_perm x l : insert_desc x l ≡ₚ x :: l.
Proof.
  induction l as [|y l IH]; simpl; [done|].
  case_decide; [|done]. rewrite IH. apply Permutation_swap.
Qed.

Lemma sort_desc_perm l : sort_desc l ≡ₚ l.
Proof.
  induction l as [|x l IH]; simpl; [done|].
  fold (sort_desc l). by rewrite insert_desc_perm, IH.
Qed.

Lemma length_sort_desc l : length (sort_desc l) = length l.
Proof. by rewrite sort_desc_perm. Qed.

Lemma insert_desc_hd x z l :
  key_ge z x → HdRel key_ge z l → HdRel key_ge z (insert_desc x l).
Proof.
  intros Hzx Hzl. destruct l as [|y l]; simpl; [by constructor|].
  case_decide; constructor; [by inv Hzl|done].
Qed.

Lemma insert_desc_sorted x l :
  Sorted key_ge l → Sorted key_ge (insert_desc x l).
Proof.
  induction 1 as [|y l Hl IH Hhd]; simpl; [by repeat constructor|].
  case_decide as Hlt.
  - constructor; [done|]. apply insert_desc_hd; [|done].
    unfold Spec.key_ge. by apply Qclt_le_weak.
  - constructor; [by constructor|]. constructor.
    unfold Spec.key_ge. by apply Qcnot_lt_le.
Qed.

Lemma sort_desc_sorted l : Sorted key_ge (sort_desc l).
Proof.
  induction l as [|x l IH]; simpl; [constructor|].
  by apply insert_desc_sorted.
Qed.

(** With pairwise distinct keys the order is strict, and the sorted list
    is determined by the set of entries. *)
Lemma sorted_ge_gt l :
  NoDup l.*1 → Sorted key_ge l → StronglySorted key_gt l.
Proof.
  intros Hnd Hs. apply Sorted_StronglySorted in Hs; [|apply _].
  induction Hs as [|x l Hl IH Hx]; [constructor|].
  rewrite fmap_cons in Hnd. apply NoDup_cons in Hnd as [Hx' Hnd].
  constructor; [by apply IH|].
  rewrite Forall_forall in Hx |- *. intros y Hy.
  destruct (Qcle_lt_or_eq _ _ (Hx y Hy)) as [Hlt|Heq]; [done|].
  destruct Hx'. rewrite <- Heq. by apply list_elem_of_fmap_2.
Qed.

Lemma sort_desc_unique l1 l2 :
  NoDup l1.*1 → l1 ≡ₚ l2 → sort_desc l1 = sort_desc l2.
Proof.
  intros Hnd Hp.
  apply (StronglySorted_unique_strong key_gt).
  - intros x1 x2 _ _ H1 H2. unfold Spec.key_gt in *.
    destruct (Qclt_not_le _ _ H1). by apply Qclt_le_weak.
  - apply sorted_ge_gt; [|apply sort_desc_sorted].
    by rewrite sort_desc_perm.
  - apply sorted_ge_gt; [|apply sort_desc_sorted].
    by rewrite sort_desc_perm, <- Hp.
  - by rewrite !sort_desc_perm.
Qed.
End PrimitiveFacts.

Section PayloadFacts.
Import Metrics.
Context {A B : Type} (f : A → B).

(** The order ignores the payload: sorting commutes with a map over it. *)
Lemma insert_desc_payload (x : Qc * A) (l : list (Qc * A)) :
  prod_map id f <$> insert_desc x l
  = insert_desc (prod_map id f x) (prod_map id f <$> l).
Proof.
  induction l as [|y l IH]; [done|].
  rewrite fmap_cons. cbn [insert_desc].
  replace ((prod_map id f x).1) with x.1 by by destruct x.
  replace ((prod_map id f y).1) with y.1 by by destruct y.
  case_decide; [|done]. by rewrite fmap_cons, IH.
Qed.

Lemma sort_desc_payload (l : list (Qc * A)) :
  prod_map id f <$> sort_desc l = sort_desc (prod_map id f <$> l).
Proof.
  induction l as [|x l IH]; simpl; [done|].
  fold (sort_desc l). fold (sort_desc (prod_map id f <$> l)).
  by rewrite insert_desc_payload, IH.
Qed.
End PayloadFacts.

Section TensorFacts.
Import Metrics.

Lemma total_from (acc : Qc) (t : list Qc) :
  foldl Qcplus acc t = acc + Spec.total t.
Proof.
  unfold Spec.total. revert acc.
  induction t as [|v t IH] using rev_ind; intros acc; simpl.
  - by rewrite Qcplus_0_r.
  - rewrite !foldl_app. cbn [foldl]. rewrite IH. ring.
Qed.

Lemma total_cons (v : Qc) (t : list Qc) : Spec.total (v :: t) = v + Spec.total t.
Proof. unfold Spec.total at 1. cbn [foldl]. by rewrite Qcplus_0_l, total_from. Qed.

Lemma length_cumsum_from (acc : Qc) (x : list Qc) :
  length (cumsum_from acc x) = length x.
Proof. revert acc. induction x; intros; simpl; auto. Qed.



Lemma gather_in_range (params : list Qc) (indices : list nat) :
  Forall (λ i, (i < length params)%nat) indices →
  gather params indices = Some (Spec.at_index params <$> indices).
Proof.
  intros Hall. apply mapM_Some, Forall2_fmap_r, Forall_Forall2_diag.
  eapply Forall_impl; [done|]. intros i Hi. simpl in *.
  unfold Spec.at_index. by destruct (lookup_lt_is_Some_2 params i Hi) as [v ->].
Qed.

Lemma at_index_seq (t : list Qc) :
  Spec.at_index t <$> seq 0 (length t) = t.
Proof.
  apply list_eq. intros i. rewrite list_lookup_fmap.
  destruct (decide (i < length t)%nat) as [Hi|Hi].
  - rewrite lookup_seq_lt by done. simpl. unfold Spec.at_index.
    by destruct (lookup_lt_is_Some_2 t i Hi) as [v ->].
  - rewrite lookup_seq_ge, lookup_ge_None_2 by lia. done.
Qed.

Lemma top_k_idxes_perm (input : list Qc) :
  (top_k input).2 ≡ₚ seq 0 (length input).
Proof.
  unfold top_k. simpl. rewrite sort_desc_perm.
  by rewrite snd_zip by (by rewrite length_seq).
Qed.

Lemma top_k_idxes_in_range (input : list Qc) :
  Forall (λ i, (i < length input)%nat) (top_k input).2.
Proof.
  rewrite top_k_idxes_perm. apply Forall_forall. intros i Hi.
  apply elem_of_seq in Hi. lia.
Qed.

Lemma top_k_values (input : list Qc) :
  (top_k input).1 = Spec.at_index input <$> (top_k input).2.
Proof.
  unfold top_k. simpl.
  pose proof (sort_desc_perm (zip input (seq 0 (length input)))) as Hp.
  assert (Hall : Forall (λ p : Qc * nat, Spec.at_index input p.2 = p.1)
                   (sort_desc (zip input (seq 0 (length input))))).
  { rewrite Hp. apply Forall_forall. intros [v i] Hin.
    apply list_elem_of_lookup in Hin as [j Hj].
    apply lookup_zip_with_Some in Hj as (v' & i' & ? & Hv & Hi); simplify_eq.
    apply lookup_seq in Hi as [-> _]. simpl. unfold Spec.at_index.
    by rewrite Hv. }
  clear Hp. induction Hall as [|p l Hp' _ IH]; [done|].
  rewrite !fmap_cons. by f_equal.
Qed.


End TensorFacts.

Section PrecisionRecallFacts.
Import Metrics.

(** The curve in closed form, from the sorted positions. *)
Lemma precision_recall_unfold (n : Z) (scores tp fp tp' fp' : list Qc) :
  gather tp (top_k scores).2 = Some tp' →
  gather fp (top_k scores).2 = Some fp' →
  _precision_recall n scores tp fp
  = Some (zip_with safe_div_elem (cumsum tp')
            (zip_with Qcplus (cumsum tp') (cumsum fp')),
          (λ v, safe_div_elem v (Qc_of_Z n)) <$> cumsum tp').
Proof.
  intros Htp Hfp. unfold _precision_recall.
  destruct (top_k scores) as [sorted idxes] eqn:Hk. simpl in *.
  rewrite Htp, Hfp. simpl.
  assert (Hlen : length tp' = length fp').
  { apply length_mapM in Htp, Hfp. congruence. }
  unfold elementwise, cumsum.
  rewrite decide_True by (by rewrite !length_cumsum_from). simpl.
  rewrite decide_True; [done|].
  by rewrite length_zip_with, !length_cumsum_from, Hlen, Nat.min_id.
Qed.

Lemma precision_recall_inv (n : Z) (scores tp fp p r : list Qc) :
  _precision_recall n scores tp fp = Some (p, r) →
  ∃ tp' fp', gather tp (top_k scores).2 = Some tp' ∧
             gather fp (top_k scores).2 = Some fp' ∧
             p = zip_with safe_div_elem (cumsum tp')
                   (zip_with Qcplus (cumsum tp') (cumsum fp')) ∧
             r = (λ v, safe_div_elem v (Qc_of_Z n)) <$> cumsum tp'.
Proof.
  intros H.
  destruct (gather tp (top_k scores).2) as [tp'|] eqn:Htp.
  2:{ unfold _precision_recall in H. destruct (top_k scores). simpl in *.
      by rewrite Htp in H. }
  destruct (gather fp (top_k scores).2) as [fp'|] eqn:Hfp.
  2:{ unfold _precision_recall in H. destruct (top_k scores). simpl in *.
      by rewrite Htp, Hfp in H. }
  rewrite (precision_recall_unfold _ _ _ _ _ _ Htp Hfp) in H.
  exists tp', fp'. by simplify_eq.
Qed.


End PrecisionRecallFacts.


(** ** Facts about [_safe_div] *)

Lemma Qc_half_double (c : Qc) : 0 < c + c → c / (c + c) = qc 1 2.
Proof.
  intros Hpos.
  assert (Hne : c + c ≠ 0)
    by (intros E; rewrite E in Hpos; by apply Qclt_not_eq in Hpos).
  assert (H2 : qc 1 2 * (c + c) = c).
  { rewrite Qcplus_diag, Qcmult_assoc.
    replace (qc 1 2 * 2) with 1 by qc_eval. ring. }
  rewrite <- H2 at 1. unfold Qcdiv.
  rewrite <- Qcmult_assoc, Qcmult_inv_r by done. ring.
Qed.

Lemma Qc_double_pos (c : Qc) : 0 < c + c ↔ 0 < c.
Proof.
  split; [|intros; by apply Qcplus_pos_pos].
  intros H. apply Qcnot_le_lt. intros Hle.
  apply (Qclt_not_le _ _ H).
  rewrite <- (Qcplus_0_l 0). by apply Qcplus_le_compat.
Qed.

Section SafeDivFacts.
Import Metrics.

Lemma safe_div_elem_nonpos (n d : Qc) : d ≤ 0 → safe_div_elem n d = 0.
Proof.
  intros Hd. unfold safe_div_elem. case_decide as Hlt; [|done].
  by destruct (Qclt_not_le _ _ Hlt).
Qed.

Lemma safe_div_elem_pos (n d : Qc) : 0 < d → safe_div_elem n d = n / d.
Proof. intros Hd. unfold safe_div_elem. by rewrite decide_True. Qed.

Lemma safe_div_elem_double (c : Qc) :
  safe_div_elem c (c + c) = if decide (0 < c) then qc 1 2 else 0.
Proof.
  unfold safe_div_elem.
  destruct (decide (0 < c + c)) as [H|H], (decide (0 < c)) as [H'|H'];
    try done.
  - by apply Qc_half_double.
  - destruct H'. by apply Qc_double_pos.
  - destruct H. by apply Qc_double_pos.
Qed.
End SafeDivFacts.

(** C6: safe division is total and never undefined.  With a scalar or an
    equally shaped denominator [_safe_div] returns a tensor of the
    numerator's shape; each of its elements is exactly 0 where the
    denominator is at most 0 and exactly numerator / denominator where the
    denominator is positive. *)
Theorem safe_div_never_undefined (numerator ds : list Qc) (d : Qc) :
  length ds = length numerator →
  (∃ r, Metrics._safe_div numerator (inl d) = Some r ∧
        length r = length numerator ∧
        ∀ i n, numerator !! i = Some n →
          (d ≤ 0 → r !! i = Some 0) ∧ (0 < d → r !! i = Some (n / d))) ∧
  (∃ r, Metrics._safe_div numerator (inr ds) = Some r ∧
        length r = length numerator ∧
        ∀ i n x, numerator !! i = Some n → ds !! i = Some x →
          (x ≤ 0 → r !! i = Some 0) ∧ (0 < x → r !! i = Some (n / x))).
Proof.
  intros Hlen. split.
  - eexists. split; [done|]. split; [by rewrite length_fmap|].
    intros i n Hn. rewrite list_lookup_fmap, Hn. simpl.
    split; intros Hd; f_equal;
      [by apply safe_div_elem_nonpos|by apply safe_div_elem_pos].
  - eexists. unfold Metrics._safe_div. rewrite decide_True by done.
    split; [done|]. split; [by rewrite length_zip_with, Hlen, Nat.min_id|].
    intros i n x Hn Hx. rewrite lookup_zip_with, Hn, Hx. simpl.
    split; intros Hd; f_equal;
      [by apply safe_div_elem_nonpos|by apply safe_div_elem_pos].
Qed.

Lemma safe_div_never_undefined_witness :
  length [qc 4 1; 0] = length [qc 3 1; qc 5 1] ∧
  ∃ r, Metrics._safe_div [qc 3 1; qc 5 1] (inr [qc 4 1; 0]) = Some r ∧
       length r = 2%nat.
Proof.
  split; [reflexivity|].
  destruct (safe_div_never_undefined [qc 3 1; qc 5 1] [qc 4 1; 0] 1 eq_refl)
    as [_ (r & Hr & Hlen & _)].
  exists r. split; [exact Hr|exact Hlen].
Defined.

(** ** Facts about a statically sized [_precision_recall] *)

Section StaticSizeFacts.
Import Metrics.

Lemma length_top_k_idxes (input : list Qc) :
  length (top_k input).2 = length input.
Proof. by rewrite top_k_idxes_perm, length_seq. Qed.

Lemma length_top_k_values (input : list Qc) :
  length (top_k input).1 = length input.
Proof. by rewrite top_k_values, length_fmap, length_top_k_idxes. Qed.

Lemma top_k_static_take (k : nat) (input : list Qc) :
  (k ≤ length input)%nat →
  top_k_static k input
  = Some (take k (top_k input).1, take k (top_k input).2).
Proof.
  intros Hk. unfold top_k_static. rewrite decide_True by done.
  by destruct (top_k input).
Qed.

Lemma top_k_static_short (k : nat) (input : list Qc) :
  (length input < k)%nat → top_k_static k input = None.
Proof. intros Hk. unfold top_k_static. rewrite decide_False; [done|lia]. Qed.

Lemma gather_take {A} (params l : list A) (indices : list nat) (k : nat) :
  gather params indices = Some l →
  gather params (take k indices) = Some (take k l).
Proof. intros Hg. apply mapM_Some, Forall2_take. by apply mapM_Some. Qed.

Lemma cumsum_from_take (acc : Qc) (x : list Qc) (k : nat) :
  cumsum_from acc (take k x) = take k (cumsum_from acc x).
Proof.
  revert acc k. induction x as [|v x IH]; intros acc [|k]; simpl; try done.
  by rewrite IH.
Qed.

(** The curve in closed form, from the first [k] sorted positions. *)
Lemma precision_recall_static_unfold (k : nat) (n : Z)
    (scores tp fp tp' fp' : list Qc) :
  (k ≤ length scores)%nat →
  gather tp (take k (top_k scores).2) = Some tp' →
  gather fp (take k (top_k scores).2) = Some fp' →
  _precision_recall_static k n scores tp fp
  = Some (zip_with safe_div_elem (cumsum tp')
            (zip_with Qcplus (cumsum tp') (cumsum fp')),
          (λ v, safe_div_elem v (Qc_of_Z n)) <$> cumsum tp').
Proof.
  intros Hk Htp Hfp. unfold _precision_recall_static.
  rewrite top_k_static_take by done. cbn [mbind option_bind].
  rewrite Htp, Hfp. cbn [mbind option_bind].
  assert (Hlen : length tp' = length fp').
  { apply length_mapM in Htp, Hfp. congruence. }
  unfold elementwise, cumsum, _safe_div.
  rewrite decide_True by (by rewrite !length_cumsum_from).
  cbn [mbind option_bind].
  rewrite decide_True; [done|].
  by rewrite length_zip_with, !length_cumsum_from, Hlen, Nat.min_id.
Qed.

Lemma precision_recall_static_inv (k : nat) (n : Z)
    (scores tp fp p r : list Qc) :
  _precision_recall_static k n scores tp fp = Some (p, r) →
  (k ≤ length scores)%nat ∧
  ∃ tp' fp', gather tp (take k (top_k scores).2) = Some tp' ∧
             gather fp (take k (top_k scores).2) = Some fp' ∧
             p = zip_with safe_div_elem (cumsum tp')
                   (zip_with Qcplus (cumsum tp') (cumsum fp')) ∧
             r = (λ v, safe_div_elem v (Qc_of_Z n)) <$> cumsum tp'.
Proof.
  intros H.
  destruct (decide (k ≤ length scores)%nat) as [Hk|Hk].
  2:{ unfold _precision_recall_static in H.
      by rewrite top_k_static_short in H by lia. }
  split; [done|].
  destruct (gather tp (take k (top_k scores).2)) as [tp'|] eqn:Htp.
  2:{ unfold _precision_recall_static in H.
      rewrite top_k_static_take in H by done. cbn [mbind option_bind] in H.
      by rewrite Htp in H. }
  destruct (gather fp (take k (top_k scores).2)) as [fp'|] eqn:Hfp.
  2:{ unfold _precision_recall_static in H.
      rewrite top_k_static_take in H by done. cbn [mbind option_bind] in H.
      by rewrite Htp, Hfp in H. }
  rewrite (precision_recall_static_unfold _ _ _ _ _ _ _ Hk Htp Hfp) in H.
  exists tp', fp'. by simplify_eq.
Qed.

(** A static size equal to the number of scores changes nothing. *)
Lemma precision_recall_static_full (n : Z) (scores tp fp : list Qc) :
  _precision_recall_static (length scores) n scores tp fp
  = _precision_recall n scores tp fp.
Proof.
  unfold _precision_recall_static, _precision_recall.
  rewrite top_k_static_take by done.
  rewrite !take_ge by (by rewrite ?length_top_k_values, ?length_top_k_idxes).
  by destruct (top_k scores).
Qed.

(** A smaller static size cuts the curve after that many ranks. *)
Lemma precision_recall_static_take (k : nat) (n : Z)
    (scores tp fp p r : list Qc) :
  (k ≤ length scores)%nat →
  _precision_recall n scores tp fp = Some (p, r) →
  _precision_recall_static k n scores tp fp = Some (take k p, take k r).
Proof.
  intros Hk H.
  apply precision_recall_inv in H as (tp' & fp' & Htp & Hfp & -> & ->).
  rewrite (precision_recall_static_unfold k n _ _ _ (take k tp') (take k fp'))
    by (done || by apply gather_take).
  unfold cumsum. rewrite !cumsum_from_take.
  by rewrite <- !zip_with_take, fmap_take.
Qed.

(** Without any rank the curve is empty, whatever the tensors hold. *)
Lemma precision_recall_static_0 (n : Z) (scores tp fp : list Qc) :
  _precision_recall_static 0 n scores tp fp = Some ([], []).
Proof.
  by rewrite (precision_recall_static_unfold 0 n scores tp fp [] [])
    by (done || simpl; lia).
Qed.
End StaticSizeFacts.

(** ** Facts about [streaming_precision_recall_arrays] *)

Section StreamingFacts.
Import Metrics.
Implicit Types (b : batch) (s : accumulators) (st rz : bool).

(** The mask of line 141. *)
Local Abbreviation class_mask cs := ((λ c, bool_decide (0 < c)%Z) <$> cs).

Lemma gather_cons {A} (params : list A) (i : nat) (indices : list nat) :
  gather params (i :: indices)
  = x ← params !! i; l ← gather params indices; Some (x :: l).
Proof. done. Qed.

Lemma where_from_class_cons (i : nat) (c : Z) (cs : list Z) :
  where_from i (class_mask (c :: cs))
  = if decide (0 < c)%Z then i :: where_from (S i) (class_mask cs)
    else where_from (S i) (class_mask cs).
Proof.
  rewrite fmap_cons. cbn [where_from].
  case_decide; [by rewrite bool_decide_eq_true_2|by rewrite bool_decide_eq_false_2].
Qed.

(** The positions of the mask are those of the positive classes. *)
Lemma elem_of_where_from (i j : nat) (cs : list Z) :
  j ∈ where_from i (class_mask cs) ↔
  ∃ k c, j = (i + k)%nat ∧ cs !! k = Some c ∧ (0 < c)%Z.
Proof.
  revert i. induction cs as [|c cs IH]; intros i.
  - simpl. split; [by intros ?%elem_of_nil|by intros (k & c & _ & ? & _)].
  - rewrite where_from_class_cons. split.
    + intros Hj. case_decide as Hc.
      * apply elem_of_cons in Hj as [->|Hj].
        { exists 0%nat, c. split_and!; [lia|done|done]. }
        apply IH in Hj as (k & c' & -> & Hk & Hc').
        exists (S k), c'. split_and!; [lia|done|done].
      * apply IH in Hj as (k & c' & -> & Hk & Hc').
        exists (S k), c'. split_and!; [lia|done|done].
    + intros (k & c' & -> & Hk & Hc'). destruct k as [|k]; simplify_eq/=.
      * rewrite decide_True by done. rewrite Nat.add_0_r. by left.
      * assert (Hin : (i + S k)%nat ∈ where_from (S i) (class_mask cs)).
        { apply IH. exists k, c'. split_and!; [lia|done|done]. }
        case_decide; [by right|done].
Qed.

Lemma length_where_from (i : nat) (cs : list Z) :
  length (where_from i (class_mask cs))
  = length (filter (λ c, (0 < c)%Z) cs).
Proof.
  revert i. induction cs as [|c cs IH]; intros i; [done|].
  rewrite where_from_class_cons, filter_cons.
  case_decide; simpl; by rewrite IH.
Qed.

(** Gathering at the positions of the mask keeps the values of the
    detections of a positive class. *)
Lemma gather_where_from {A} (pre values : list A) (cs : list Z) :
  length values = length cs →
  gather (pre ++ values) (where_from (length pre) (class_mask cs))
  = Some (Spec.kept_by_class cs values).
Proof.
  unfold Spec.kept_by_class. revert pre values.
  induction cs as [|c cs IH]; intros pre [|v vs] Hlen; try done.
  injection Hlen as Hlen.
  specialize (IH (pre ++ [v]) vs Hlen).
  rewrite length_app, Nat.add_1_r, <- app_assoc in IH. simpl in IH.
  rewrite where_from_class_cons. cbn [zip zip_with]. rewrite filter_cons.
  cbn [fst]. case_decide.
  - rewrite gather_cons, list_lookup_middle by done.
    cbn [mbind option_bind]. by rewrite IH.
  - done.
Qed.

Lemma boolean_mask_kept {A} st (rclasses : list Z) (values : list A) :
  length values = length rclasses →
  boolean_mask st values (class_mask rclasses)
  = Some (Spec.kept_by_class rclasses values).
Proof.
  intros Hlen. unfold boolean_mask.
  rewrite bool_decide_eq_true_2 by (by rewrite length_fmap).
  rewrite andb_false_r.
  by apply (gather_where_from [] values rclasses).
Qed.

(** With static shapes a mask of another size is rejected. *)
Lemma boolean_mask_static {A} (tensor : list A) (mask : list bool) :
  is_Some (boolean_mask true tensor mask) ↔ length tensor = length mask.
Proof.
  unfold boolean_mask. simpl. case_bool_decide as Hlen; simpl.
  - split; [done|]. intros _. apply mapM_is_Some, Forall_forall.
    intros i Hi. apply lookup_lt_is_Some.
    unfold where_true in Hi. revert Hi. rewrite Hlen. clear.
    assert (H : ∀ j, i ∈ where_from j mask → (i < j + length mask)%nat).
    { induction mask as [|m mask IH]; intros j; simpl;
        [by intros ?%elem_of_nil|].
      destruct m.
      - intros [->|Hi]%elem_of_cons; [lia|]. apply IH in Hi. lia.
      - intros Hi. apply IH in Hi. lia. }
    apply H.
  - split; [by intros []|done].
Qed.

(** With shapes known at run time the positions of the positive classes
    must lie within the tensor. *)
Lemma boolean_mask_dynamic {A} (tensor : list A) (rclasses : list Z) :
  is_Some (boolean_mask false tensor (class_mask rclasses)) ↔
  Spec.covers_positive rclasses tensor.
Proof.
  unfold boolean_mask, Spec.covers_positive, where_true, gather. simpl.
  rewrite mapM_is_Some, Forall_forall. split.
  - intros Hall i c Hi Hc. apply lookup_lt_is_Some, Hall.
    apply elem_of_where_from. by exists i, c.
  - intros Hcov i Hi. apply elem_of_where_from in Hi as (k & c & -> & Hk & Hc).
    apply lookup_lt_is_Some. simpl. by eapply Hcov.
Qed.

Lemma length_boolean_mask {A} st (tensor l : list A) (rclasses : list Z) :
  boolean_mask st tensor (class_mask rclasses) = Some l →
  length l = length (filter (λ c, (0 < c)%Z) rclasses).
Proof.
  unfold boolean_mask. case_match; [done|]. intros Hg.
  apply length_mapM in Hg. rewrite <- Hg. apply length_where_from.
Qed.

(** The two flag arrays leave the preprocessing equal. *)
Lemma preprocess_fp_is_tp st rz b :
  (preprocess st rz b).2 = (preprocess st rz b).1.2.
Proof. by destruct rz. Qed.

Lemma fp_op_is_tp_op st rz b s :
  v_fp s = v_tp s → fp_op st rz b s = tp_op st rz b s.
Proof.
  intros Hs. unfold fp_op, tp_op.
  pose proof (preprocess_fp_is_tp st rz b) as Hp.
  destruct (preprocess st rz b) as [[[cs sc] tp] fp]. simpl in Hp.
  by rewrite Hp, Hs.
Qed.

(** The [fp_tensor] argument is not read. *)
Lemma preprocess_with_fp st rz b (fp : list Qc) :
  preprocess st rz (Spec.with_fp b fp) = preprocess st rz b.
Proof. done. Qed.

Lemma assign_ops_with_fp st rz b s (fp : list Qc) :
  assign_ops st rz (Spec.with_fp b fp) s = assign_ops st rz b s.
Proof. done. Qed.

Lemma update_op_with_fp st rz b s (fp : list Qc) :
  update_op st rz (Spec.with_fp b fp) s = update_op st rz b s.
Proof. done. Qed.

Lemma run_updates_with_fp st rz (g : batch → list Qc) bs s :
  run_updates st rz ((λ b, Spec.with_fp b (g b)) <$> bs) s
  = run_updates st rz bs s.
Proof.
  revert s. induction bs as [|b bs IH]; intros s; [done|].
  rewrite fmap_cons. cbn [run_updates]. rewrite update_op_with_fp.
  destruct (update_op st rz b s) as [[s' r]|]; [|done]. apply IH.
Qed.

(** What a run assigns: the counter, and the cleaned scores and
    true-positive flags appended to the three arrays. *)
Lemma assign_ops_inv st rz b s s' :
  assign_ops st rz b s = Some s' →
  ∃ sc tp,
    (if rz
     then boolean_mask st (rscores b) (class_mask (rclasses b)) = Some sc ∧
          boolean_mask st (tp_tensor b) (class_mask (rclasses b)) = Some tp
     else sc = rscores b ∧ tp = tp_tensor b) ∧
    s' = {| v_nobjects := wrap64 (v_nobjects s + reduce_sum64 (n_gbboxes b));
            v_scores := v_scores s ++ sc;
            v_tp := v_tp s ++ tp;
            v_fp := v_fp s ++ tp |}.
Proof.
  unfold assign_ops, scores_op, tp_op, fp_op, preprocess, nobjects_op,
    reshape_flat.
  destruct rz.
  - destruct (boolean_mask st (rscores b) _) as [sc|]; [|done].
    destruct (boolean_mask st (tp_tensor b) _) as [tp|]; [|done].
    simpl. intros; simplify_eq. by exists sc, tp.
  - simpl. intros; simplify_eq. by eexists _, _.
Qed.

Lemma assign_ops_fp_is_tp st rz b s s' :
  v_fp s = v_tp s → assign_ops st rz b s = Some s' → v_fp s' = v_tp s'.
Proof.
  intros Hs Ha. apply assign_ops_inv in Ha as (sc & tp & _ & ->). simpl.
  by rewrite Hs.
Qed.

(** The curve a run returns covers the first [k] ranks of the accumulated
    detections; [k] is the static size of [scores_op] where the graph
    knows one, and the number of accumulated scores otherwise. *)
Lemma update_op_inv st rz b s s' p r :
  update_op st rz b s = Some (s', (p, r)) →
  assign_ops st rz b s = Some s' ∧
  ∃ tp' fp',
    let k := default (length (v_scores s')) (scores_op_size st rz b) in
    (k ≤ length (v_scores s'))%nat ∧
    gather (v_tp s') (take k (top_k (v_scores s')).2) = Some tp' ∧
    gather (v_fp s') (take k (top_k (v_scores s')).2) = Some fp' ∧
    p = zip_with safe_div_elem (cumsum tp')
          (zip_with Qcplus (cumsum tp') (cumsum fp')) ∧
    r = (λ v, safe_div_elem v (Qc_of_Z (v_nobjects s'))) <$> cumsum tp'.
Proof.
  unfold update_op. destruct (assign_ops st rz b s) as [s1|]; [|done].
  cbn [mbind option_bind].
  destruct (scores_op_size st rz b) as [size|]; cbn [default].
  - destruct (_precision_recall_static _ _ _ _ _) as [[p1 r1]|] eqn:Hv;
      [|done].
    cbn [mbind option_bind]. intros; simplify_eq. split; [done|].
    apply precision_recall_static_inv in Hv as (Hk & tp' & fp' & ?).
    by exists tp', fp'.
  - rewrite <- precision_recall_static_full.
    destruct (_precision_recall_static _ _ _ _ _) as [[p1 r1]|] eqn:Hv;
      [|done].
    cbn [mbind option_bind]. intros; simplify_eq. split; [done|].
    apply precision_recall_static_inv in Hv as (Hk & tp' & fp' & ?).
    by exists tp', fp'.
Qed.

Lemma update_op_assigns st rz b s s' r :
  update_op st rz b s = Some (s', r) → assign_ops st rz b s = Some s'.
Proof. destruct r as [p r]. by intros [? _]%update_op_inv. Qed.

(** Where the accumulated curve is defined, a run returns it, cut after
    the static size of [scores_op] where the graph knows one. *)
Lemma update_op_accumulated st rz b s s' p r :
  assign_ops st rz b s = Some s' →
  Spec.accumulated_curve s' = Some (p, r) →
  (∀ size, scores_op_size st rz b = Some size →
     (size ≤ length (v_scores s'))%nat) →
  update_op st rz b s
  = Some (s', match scores_op_size st rz b with
              | Some size => (take size p, take size r)
              | None => (p, r)
              end).
Proof.
  intros Ha Hc Hsize. unfold update_op. rewrite Ha. cbn [mbind option_bind].
  destruct (scores_op_size st rz b) as [size|].
  - by rewrite (precision_recall_static_take _ _ _ _ _ p r)
      by (done || by apply Hsize).
  - unfold Spec.accumulated_curve in Hc. by rewrite Hc.
Qed.

Lemma run_updates_fp_is_tp st rz bs s s' :
  v_fp s = v_tp s → run_updates st rz bs s = Some s' → v_fp s' = v_tp s'.
Proof.
  revert s. induction bs as [|b bs IH]; intros s Hs; simpl.
  - intros; by simplify_eq.
  - destruct (update_op st rz b s) as [[s1 r]|] eqn:Hu; [|done]. simpl.
    apply update_op_assigns in Hu.
    apply IH. by eapply assign_ops_fp_is_tp.
Qed.

(** The sequence of runs that keeps the last result ends in the same
    variables. *)
Lemma run_updates_returning_state st rz bs s r0 :
  fst <$> run_updates_returning st rz bs s r0 = run_updates st rz bs s.
Proof.
  revert s r0. induction bs as [|b bs IH]; intros s r0; [done|].
  cbn [run_updates_returning run_updates].
  destruct (update_op st rz b s) as [[s1 r]|]; [|done]. apply IH.
Qed.

Lemma run_updates_returning_with_fp st rz (g : batch → list Qc) bs s r0 :
  run_updates_returning st rz ((λ b, Spec.with_fp b (g b)) <$> bs) s r0
  = run_updates_returning st rz bs s r0.
Proof.
  revert s r0. induction bs as [|b bs IH]; intros s r0; [done|].
  rewrite fmap_cons. cbn [run_updates_returning]. rewrite update_op_with_fp.
  destruct (update_op st rz b s) as [[s' r]|]; [|done]. apply IH.
Qed.

(** The last run of a sequence, taken apart. *)
Lemma run_updates_returning_snoc st rz bs b s r0 :
  run_updates_returning st rz (bs ++ [b]) s r0
  = s' ← run_updates st rz bs s; update_op st rz b s'.
Proof.
  revert s r0. induction bs as [|b' bs IH]; intros s r0.
  - simpl. by destruct (update_op st rz b s) as [[s' r]|].
  - cbn [app run_updates_returning run_updates].
    destruct (update_op st rz b' s) as [[s1 r]|]; [|done]. apply IH.
Qed.

(** With equal flag arrays the precision is 1/2 where the cumulative
    true-positive count is positive and 0 elsewhere. *)
Lemma precision_of_equal_flags (tp' : list Qc) :
  zip_with safe_div_elem (cumsum tp') (zip_with Qcplus (cumsum tp') (cumsum tp'))
  = (λ c, if decide (0 < c) then qc 1 2 else 0) <$> cumsum tp'.
Proof.
  rewrite zip_with_diag, zip_with_fmap_r, zip_with_diag.
  apply list_fmap_ext. intros _ c _. apply safe_div_elem_double.
Qed.

Lemma value_op_empty s : value_op s = Some ([], []).
Proof. unfold value_op. apply precision_recall_static_0. Qed.
End StreamingFacts.

(** C1: with [remove_zero_labels] enabled, every update appends to the
    false-positive accumulator the true-positive input filtered by the class
    mask (predicted class id > 0), the very elements it appends to the
    true-positive accumulator; the [fp_tensor] argument has no influence,
    and on the batch [mixed_batch] the appended elements, [1; 0], are not
    those of the filtered [fp_tensor], [0; 1].  This holds whether the
    shapes are static or not. *)
Theorem fp_accumulator_carries_tp_values
    (static_shapes : bool) (b : Metrics.batch) (s : Metrics.accumulators) :
  length (Metrics.rscores b) = length (Metrics.rclasses b) →
  length (Metrics.tp_tensor b) = length (Metrics.rclasses b) →
  ∃ s', Metrics.assign_ops static_shapes true b s = Some s' ∧
        Metrics.v_fp s'
        = Metrics.v_fp s
          ++ Spec.kept_by_class (Metrics.rclasses b) (Metrics.tp_tensor b) ∧
        Metrics.v_tp s'
        = Metrics.v_tp s
          ++ Spec.kept_by_class (Metrics.rclasses b) (Metrics.tp_tensor b) ∧
        (∀ s'' r, Metrics.update_op static_shapes true b s = Some (s'', r) →
                  s'' = s') ∧
        (∀ fp, Metrics.assign_ops static_shapes true (Spec.with_fp b fp) s
               = Some s') ∧
        (Metrics.assign_ops static_shapes true Examples.mixed_batch
           Metrics.initial
           ≫= (λ s0, Some (Metrics.v_fp s0))) = Some [1; 0] ∧
        Spec.kept_by_class (Metrics.rclasses Examples.mixed_batch)
          (Metrics.fp_tensor Examples.mixed_batch) = [0; 1].
Proof.
  intros Hsc Htp.
  assert (Ha : Metrics.assign_ops static_shapes true b s
               = Some {| Metrics.v_nobjects := Metrics.nobjects_op b s;
                         Metrics.v_scores :=
                           Metrics.v_scores s
                           ++ Spec.kept_by_class (Metrics.rclasses b)
                                (Metrics.rscores b);
                         Metrics.v_tp :=
                           Metrics.v_tp s
                           ++ Spec.kept_by_class (Metrics.rclasses b)
                                (Metrics.tp_tensor b);
                         Metrics.v_fp :=
                           Metrics.v_fp s
                           ++ Spec.kept_by_class (Metrics.rclasses b)
                                (Metrics.tp_tensor b) |}).
  { unfold Metrics.assign_ops, Metrics.scores_op, Metrics.tp_op,
      Metrics.fp_op, Metrics.preprocess, Metrics.reshape_flat.
    by rewrite !boolean_mask_kept by done. }
  eexists. split; [exact Ha|]. simpl. split_and!; try done.
  - intros s'' r Hu. apply update_op_assigns in Hu.
    rewrite Ha in Hu. by simplify_eq.
  - by destruct static_shapes.
Qed.

Lemma fp_accumulator_carries_tp_values_witness :
  length (Metrics.rscores Examples.mixed_batch)
  = length (Metrics.rclasses Examples.mixed_batch) ∧
  length (Metrics.tp_tensor Examples.mixed_batch)
  = length (Metrics.rclasses Examples.mixed_batch) ∧
  ∃ s', Metrics.assign_ops false true Examples.mixed_batch Metrics.initial
        = Some s' ∧
        Metrics.v_fp s' = Metrics.v_tp s'.
Proof.
  split; [reflexivity|]. split; [reflexivity|].
  destruct (fp_accumulator_carries_tp_values false Examples.mixed_batch
              Metrics.initial eq_refl eq_refl) as (s' & Hs' & Hfp & Htp & _).
  exists s'. split; [exact Hs'|]. rewrite Hfp, Htp. reflexivity.
Defined.

(** ** Facts about [average_precision] *)

Ltac qc_order :=
  repeat match goal with
         | H : ¬ (_ ≤ _)%Qc |- _ => apply Qcnot_le_lt, Qclt_le_weak in H
         end;
  try done; try apply Qcle_antisym; eauto using Qcle_trans.

Section AveragePrecisionFacts.
Import Metrics.

Lemma Qc_max_assoc (a b c : Qc) :
  Qc_max a (Qc_max b c) = Qc_max (Qc_max a b) c.
Proof. unfold Qc_max. repeat case_decide; qc_order. Qed.

Lemma foldl_Qc_max (a b : Qc) (l : list Qc) :
  foldl Qc_max (Qc_max a b) l = Qc_max a (foldl Qc_max b l).
Proof.
  revert b. induction l as [|c l IH]; intros b; simpl; [done|].
  by rewrite <- Qc_max_assoc, IH.
Qed.

Lemma cummax_reverse_cons (v : Qc) (x : list Qc) :
  cummax_reverse (v :: x) = Spec.envelope_at (v :: x) 0 :: cummax_reverse x.
Proof.
  revert v. induction x as [|w x IH]; intros v; [done|].
  change (cummax_reverse (v :: w :: x))
    with (match cummax_reverse (w :: x) with
          | [] => [v]
          | m :: r => Qc_max v m :: m :: r
          end).
  rewrite IH. f_equal. unfold Spec.envelope_at. simpl.
  by rewrite foldl_Qc_max.
Qed.

Lemma length_cummax_reverse (x : list Qc) :
  length (cummax_reverse x) = length x.
Proof.
  induction x as [|v x IH]; [done|].
  rewrite cummax_reverse_cons. simpl. by rewrite IH.
Qed.

Lemma lookup_cummax_reverse (x : list Qc) (i : nat) :
  (i < length x)%nat →
  cummax_reverse x !! i = Some (Spec.envelope_at x i).
Proof.
  revert i. induction x as [|v x IH]; intros i Hi; simpl in Hi; [lia|].
  rewrite cummax_reverse_cons. destruct i as [|i]; [done|].
  cbn [lookup list_lookup].
  change (Spec.envelope_at (v :: x) (S i)) with (Spec.envelope_at x i).
  apply IH. lia.
Qed.

Lemma reduce_sum_total (x : list Qc) : reduce_sum x = Spec.total x.
Proof.
  induction x as [|v x IH]; [done|].
  rewrite total_cons, <- IH. done.
Qed.

Lemma lookup_at_index (t : list Qc) (i : nat) :
  (i < length t)%nat → t !! i = Some (Spec.at_index t i).
Proof.
  intros Hi. unfold Spec.at_index.
  by destruct (lookup_lt_is_Some_2 t i Hi) as [v ->].
Qed.

(** The adjacent-pair products of the code are the terms of the sum. *)
Lemma riemann_products (E R : list Qc) (n : nat) (g : nat → Qc) :
  length E = S (S n) → length R = S (S n) →
  (∀ i, (i < S (S n))%nat → E !! i = Some (g i)) →
  zip_with Qcmult
    ((λ v, v / 2) <$> zip_with Qcplus (slice_from_1 E) (slice_to_last E))
    (zip_with Qcminus (slice_from_1 R) (slice_to_last R))
  = (λ i, (g i + g (S i)) / 2 * (Spec.at_index R (S i) - Spec.at_index R i))
      <$> seq 0 (S n).
Proof.
  intros HE HR Hg. unfold slice_from_1, slice_to_last.
  rewrite HE, HR. replace (S (S n) - 1)%nat with (S n) by lia.
  apply list_eq. intros i.
  rewrite lookup_zip_with, !list_lookup_fmap, !lookup_zip_with, !lookup_drop.
  destruct (decide (i < S n)%nat) as [Hi|Hi].
  - rewrite !lookup_take_lt by done.
    rewrite !Hg, !lookup_at_index by lia.
    rewrite lookup_seq_lt by done.
    cbn [mbind option_bind fmap option_fmap option_map].
    rewrite Nat.add_0_l. replace (1 + i)%nat with (S i) by lia.
    by rewrite (Qcplus_comm (g (S i))).
  - rewrite (lookup_ge_None_2 E), lookup_seq_ge by lia. done.
Qed.
End AveragePrecisionFacts.

(** C4: for a precision and a recall sequence of one length,
    [average_precision] returns the sum, over the adjacent pairs of the
    curve extended by the points (precision 0, recall 0) in front and
    (precision 0, recall 1) behind, of the mean of the two enveloped
    precisions times the difference of the two recalls, where the envelope
    at a point is the maximum of the precisions from that point on; the
    curve precision = [1], recall = [1] gives exactly 1. *)
Theorem average_precision_riemann_sum (precision recall : list Qc) :
  length precision = length recall →
  Metrics.average_precision precision recall
  = Some (Spec.riemann_sum precision recall) ∧
  Metrics.average_precision [1] [1] = Some 1.
Proof.
  intros Hlen. split; [|qc_eval].
  unfold Metrics.average_precision, Spec.riemann_sum.
  set (P := [0] ++ precision ++ [0]). set (R := [0] ++ recall ++ [1]).
  assert (HP : length P = S (S (length precision)))
    by (unfold P; rewrite !length_app; simpl; lia).
  assert (HR : length R = S (S (length precision)))
    by (unfold R; rewrite !length_app; simpl; lia).
  assert (HE : length (Metrics.cummax_reverse P) = S (S (length precision)))
    by (by rewrite length_cummax_reverse).
  unfold Metrics.elementwise.
  do 3 (rewrite decide_True
          by (unfold Metrics.slice_from_1, Metrics.slice_to_last;
              rewrite ?length_fmap, ?length_zip_with, ?length_drop,
                ?length_take, ?HE, ?HR; lia);
        cbn [mbind option_bind]).
  f_equal. rewrite reduce_sum_total. f_equal.
  rewrite (riemann_products _ R (length precision) (Spec.envelope_at P));
    [|done|done|].
  - by replace (length precision + 1)%nat with (S (length precision)) by lia.
  - intros i Hi. apply lookup_cummax_reverse. by rewrite HP.
Qed.

Lemma average_precision_riemann_sum_witness :
  length [1; qc 1 2] = length [qc 1 2; 1] ∧
  Metrics.average_precision [1; qc 1 2] [qc 1 2; 1]
  = Some (Spec.riemann_sum [1; qc 1 2] [qc 1 2; 1]).
Proof.
  split; [reflexivity|].
  apply (average_precision_riemann_sum [1; qc 1 2] [qc 1 2; 1]). reflexivity.
Defined.

(** ** Facts about the order of the updates *)

Section OrderFacts.
Import Metrics.
Implicit Types (b : batch) (s : accumulators) (st rz : bool).

Lemma wrap64_add_l (a x : Z) : wrap64 (wrap64 a + x) = wrap64 (a + x).
Proof.
  unfold wrap64. f_equal.
  replace ((a + 2 ^ 63) `mod` 2 ^ 64 - 2 ^ 63 + x + 2 ^ 63)%Z
    with ((a + 2 ^ 63) `mod` 2 ^ 64 + x)%Z by lia.
  rewrite Zplus_mod_idemp_l. f_equal. lia.
Qed.

Lemma wrap64_swap (a x y : Z) :
  wrap64 (wrap64 (a + x) + y) = wrap64 (wrap64 (a + y) + x).
Proof. rewrite !wrap64_add_l. f_equal. lia. Qed.

Lemma gather_top_k (scores flags : list Qc) :
  length flags = length scores →
  gather flags (top_k scores).2 = Some (sort_desc (zip scores flags)).*2.
Proof.
  intros Hlen. rewrite gather_in_range.
  2:{ rewrite Hlen. apply top_k_idxes_in_range. }
  f_equal. unfold top_k. simpl.
  rewrite <- (at_index_seq flags) at 2. rewrite Hlen.
  replace (zip scores (Spec.at_index flags <$> seq 0 (length scores)))
    with (prod_map id (Spec.at_index flags)
            <$> zip scores (seq 0 (length scores)))
    by (by rewrite prod_map_zip, list_fmap_id).
  rewrite <- sort_desc_payload, <- !list_fmap_compose.
  by apply list_fmap_ext; intros ? [] ?.
Qed.

(** The accumulated curve is a function of the scored flags sorted by
    score. *)
Lemma accumulated_curve_sorted s :
  Spec.aligned s →
  Spec.accumulated_curve s
  = Some (zip_with safe_div_elem
            (cumsum (sort_desc (zip (v_scores s) (v_tp s))).*2)
            (zip_with Qcplus
               (cumsum (sort_desc (zip (v_scores s) (v_tp s))).*2)
               (cumsum (sort_desc (zip (v_scores s) (v_fp s))).*2)),
          (λ v, safe_div_elem v (Qc_of_Z (v_nobjects s)))
            <$> cumsum (sort_desc (zip (v_scores s) (v_tp s))).*2).
Proof.
  intros [Htp Hfp]. unfold Spec.accumulated_curve.
  by apply precision_recall_unfold; apply gather_top_k.
Qed.

Lemma scores_op_size_le st rz b s s' (size : nat) :
  assign_ops st rz b s = Some s' →
  scores_op_size st rz b = Some size →
  (size ≤ length (v_scores s'))%nat.
Proof.
  intros Ha Hsize. unfold scores_op_size, reshape_flat in Hsize.
  destruct st, rz; simplify_eq/=.
  apply assign_ops_inv in Ha as (sc & tp & [-> ->] & ->). simpl.
  rewrite length_app. lia.
Qed.

(** A run on aligned variables returns: the accumulated curve, cut after
    the static size of [scores_op] where the graph knows one. *)
Lemma update_op_aligned st rz b s s' :
  assign_ops st rz b s = Some s' → Spec.aligned s' →
  ∃ p r, Spec.accumulated_curve s' = Some (p, r) ∧
         update_op st rz b s
         = Some (s', match scores_op_size st rz b with
                     | Some size => (take size p, take size r)
                     | None => (p, r)
                     end).
Proof.
  intros Ha Hs'. eexists _, _. split; [by apply accumulated_curve_sorted|].
  apply update_op_accumulated; [done|by apply accumulated_curve_sorted|].
  intros size. by apply (scores_op_size_le st rz b s).
Qed.

Lemma appended_aligned s b :
  Spec.aligned s → Spec.well_shaped b → Spec.aligned (Spec.appended s b).
Proof.
  unfold Spec.aligned, Spec.well_shaped. intros [Htp Hfp] Hb. simpl.
  rewrite !length_app. lia.
Qed.

Lemma assign_ops_appended st b s :
  assign_ops st false b s = Some (Spec.appended s b).
Proof. done. Qed.

Lemma update_op_appended st s b :
  Spec.aligned s → Spec.well_shaped b →
  ∃ r, update_op st false b s = Some (Spec.appended s b, r).
Proof.
  intros Hs Hb.
  destruct (update_op_aligned st false b s _ (assign_ops_appended st b s)
              (appended_aligned s b Hs Hb)) as (p & r & _ & ->).
  eauto.
Qed.

Lemma run_updates_appended st bs s :
  Spec.aligned s → Forall Spec.well_shaped bs →
  run_updates st false bs s = Some (foldl Spec.appended s bs).
Proof.
  intros Hs Hbs. revert s Hs.
  induction Hbs as [|b bs Hb _ IH]; intros s Hs; [done|].
  cbn [run_updates foldl].
  destruct (update_op_appended st s b Hs Hb) as [r ->]. simpl.
  apply IH. by apply appended_aligned.
Qed.

Lemma foldl_appended_aligned bs s :
  Spec.aligned s → Forall Spec.well_shaped bs →
  Spec.aligned (foldl Spec.appended s bs).
Proof.
  intros Hs Hbs. revert s Hs.
  induction Hbs as [|b bs Hb _ IH]; intros s Hs; [done|].
  simpl. apply IH. by apply appended_aligned.
Qed.

(** What the last run of a sequence returns: the curve accumulated by the
    whole sequence, cut after the static size of the last batch where the
    graph knows one. *)
Lemma run_updates_returning_appended st bs s r0 :
  Spec.aligned s → Forall Spec.well_shaped bs →
  ∃ p r,
    Spec.accumulated_curve (foldl Spec.appended s bs) = Some (p, r) ∧
    run_updates_returning st false bs s r0
    = Some (foldl Spec.appended s bs,
            match last bs with
            | None => r0
            | Some b =>
                match scores_op_size st false b with
                | Some size => (take size p, take size r)
                | None => (p, r)
                end
            end).
Proof.
  intros Hs Hbs. revert s r0 Hs.
  induction Hbs as [|b bs Hb Hbs IH]; intros s r0 Hs.
  - eexists _, _. split; [by apply accumulated_curve_sorted|done].
  - cbn [run_updates_returning foldl].
    pose proof (appended_aligned s b Hs Hb) as Hs1.
    destruct (update_op_aligned st false b s _ (assign_ops_appended st b s) Hs1)
      as (p1 & r1 & Hc1 & ->). cbn [mbind option_bind].
    destruct (IH (Spec.appended s b)
                (match scores_op_size st false b with
                 | Some size => (take size p1, take size r1)
                 | None => (p1, r1)
                 end) Hs1) as (p & r & Hc & ->).
    exists p, r. split; [done|]. f_equal. f_equal.
    rewrite last_cons. destruct (last bs) as [bl|] eqn:Hl; [done|].
    apply last_None in Hl. subst bs. simpl in *.
    rewrite Hc1 in Hc. by simplify_eq.
Qed.

Lemma foldl_appended_scores bs s :
  v_scores (foldl Spec.appended s bs) = v_scores s ++ (bs ≫= rscores).
Proof.
  revert s. induction bs as [|b bs IH]; intros s; simpl.
  - by rewrite app_nil_r.
  - rewrite IH. simpl. by rewrite <- app_assoc.
Qed.

Lemma foldl_appended_tp bs s :
  v_tp (foldl Spec.appended s bs) = v_tp s ++ (bs ≫= tp_tensor).
Proof.
  revert s. induction bs as [|b bs IH]; intros s; simpl.
  - by rewrite app_nil_r.
  - rewrite IH. simpl. by rewrite <- app_assoc.
Qed.

Lemma foldl_appended_fp bs s :
  v_fp (foldl Spec.appended s bs) = v_fp s ++ (bs ≫= tp_tensor).
Proof.
  revert s. induction bs as [|b bs IH]; intros s; simpl.
  - by rewrite app_nil_r.
  - rewrite IH. simpl. by rewrite <- app_assoc.
Qed.

Lemma foldl_appended_nobjects bs bs' s :
  bs ≡ₚ bs' →
  v_nobjects (foldl Spec.appended s bs)
  = v_nobjects (foldl Spec.appended s bs').
Proof.
  intros Hp. revert s.
  induction Hp as [|b bs bs' _ IH|b1 b2 bs|bs1 bs2 bs3 _ IH1 _ IH2];
    intros s; simpl.
  - done.
  - apply IH.
  - assert (Hc : ∀ s1 s2, v_nobjects s1 = v_nobjects s2 →
              v_nobjects (foldl Spec.appended s1 bs)
              = v_nobjects (foldl Spec.appended s2 bs)).
    { induction bs as [|b bs IHbs]; intros s1 s2 H12; simpl; [done|].
      apply IHbs. simpl. by rewrite H12. }
    apply Hc. simpl. apply wrap64_swap.
  - by rewrite IH1, IH2.
Qed.

Lemma length_bind_scores (f : batch → list Qc) bs :
  Forall (λ b, length (f b) = length (rscores b)) bs →
  length (bs ≫= f) = length (bs ≫= rscores).
Proof.
  induction 1 as [|b bs Hb _ IH]; [done|].
  rewrite !bind_cons, !length_app. by rewrite IH, Hb.
Qed.

Lemma zip_bind_scores (f : batch → list Qc) bs :
  Forall (λ b, length (f b) = length (rscores b)) bs →
  zip (bs ≫= rscores) (bs ≫= f) = bs ≫= (λ b, zip (rscores b) (f b)).
Proof.
  induction 1 as [|b bs Hb _ IH]; [done|].
  rewrite !bind_cons, <- IH. by rewrite zip_with_app.
Qed.

(** With pairwise distinct scores the accumulated curve does not depend on
    the order of the batches. *)
Lemma accumulated_curve_permutation bs bs' :
  bs ≡ₚ bs' → Forall Spec.well_shaped bs →
  NoDup (v_scores (foldl Spec.appended initial bs)) →
  Spec.accumulated_curve (foldl Spec.appended initial bs)
  = Spec.accumulated_curve (foldl Spec.appended initial bs').
Proof.
  intros Hp Hbs Hnd.
  assert (Hbs' : Forall Spec.well_shaped bs') by (by rewrite <- Hp).
  assert (Hinit : Spec.aligned initial) by done.
  rewrite !accumulated_curve_sorted by (by apply foldl_appended_aligned).
  rewrite (foldl_appended_nobjects bs bs') by done.
  assert (Hsort : ∀ f : batch → list Qc,
            Forall (λ b, length (f b) = length (rscores b)) bs →
            sort_desc (zip (bs ≫= rscores) (bs ≫= f))
            = sort_desc (zip (bs' ≫= rscores) (bs' ≫= f))).
  { intros f Hf.
    assert (Hf' : Forall (λ b, length (f b) = length (rscores b)) bs')
      by (by rewrite <- Hp).
    apply sort_desc_unique.
    - rewrite fst_zip; [by rewrite foldl_appended_scores in Hnd|].
      by rewrite (length_bind_scores f).
    - rewrite !zip_bind_scores by done. by rewrite Hp. }
  rewrite !foldl_appended_scores, !foldl_appended_tp, !foldl_appended_fp.
  simpl. by rewrite !Hsort.
Qed.
End OrderFacts.

(** ** Totality of the updates on batches of one shape *)

Section TotalityFacts.
Import Metrics.
Implicit Types (b : batch) (s : accumulators) (st rz : bool).

Lemma length_kept_by_class {A B} (rclasses : list Z)
    (v1 : list A) (v2 : list B) :
  length v1 = length rclasses → length v2 = length rclasses →
  length (Spec.kept_by_class rclasses v1)
  = length (Spec.kept_by_class rclasses v2).
Proof.
  unfold Spec.kept_by_class. rewrite !length_fmap. revert v1 v2.
  induction rclasses as [|c cs IH]; intros [|x v1] [|y v2] H1 H2;
    simplify_eq/=; try done.
  rewrite !filter_cons. simpl. case_decide; simpl; auto.
Qed.

Lemma assign_ops_one_shape st rz b s :
  Spec.aligned s → Spec.one_shape b →
  ∃ s', assign_ops st rz b s = Some s' ∧ Spec.aligned s'.
Proof.
  intros [Htp Hfp] [Hsc Hb]. destruct rz.
  - unfold assign_ops, scores_op, tp_op, fp_op, preprocess, reshape_flat.
    rewrite !boolean_mask_kept by done. simpl.
    eexists. split; [done|]. unfold Spec.aligned. simpl.
    rewrite !length_app,
      (length_kept_by_class _ (tp_tensor b) (rscores b)) by done.
    lia.
  - exists (Spec.appended s b). split; [done|].
    apply appended_aligned; [done|]. unfold Spec.well_shaped. congruence.
Qed.

Lemma update_op_one_shape st rz b s :
  Spec.aligned s → Spec.one_shape b →
  ∃ s' r, update_op st rz b s = Some (s', r) ∧ Spec.aligned s'.
Proof.
  intros Hs Hb.
  destruct (assign_ops_one_shape st rz b s Hs Hb) as (s' & Ha & Hs').
  destruct (update_op_aligned st rz b s s' Ha Hs') as (p & r & _ & ->).
  eauto.
Qed.

Lemma run_updates_one_shape st rz bs s :
  Spec.aligned s → Forall Spec.one_shape bs →
  ∃ s', run_updates st rz bs s = Some s' ∧ Spec.aligned s'.
Proof.
  intros Hs Hbs. revert s Hs.
  induction Hbs as [|b bs Hb _ IH]; intros s Hs; [by eexists|].
  cbn [run_updates].
  destruct (update_op_one_shape st rz b s Hs Hb) as (s' & r & -> & Hs').
  simpl. by apply IH.
Qed.
End TotalityFacts.

(** C2: in every sequence of updates, with [remove_zero_labels] enabled
    or not, with static shapes or not and whatever the inputs, every run
    that returns leaves the false-positive accumulator equal to the
    true-positive accumulator and returns a curve whose precision is 1/2
    at the ranks where the cumulative true-positive count is positive and
    0 at the others, so that the [fp_tensor] arguments have no influence;
    the value tensor read from the variables is the empty curve, which has
    no precision at all.  Every run returns when the tensors of each batch
    have one shape. *)
Theorem precision_is_zero_or_half
    (static_shapes remove_zero_labels : bool)
    (bs : list Metrics.batch) (b : Metrics.batch) :
  (Forall Spec.one_shape bs → Spec.one_shape b →
   ∃ s0 s c,
     Metrics.run_updates static_shapes remove_zero_labels bs Metrics.initial
     = Some s0 ∧
     Metrics.update_op static_shapes remove_zero_labels b s0 = Some (s, c)) ∧
  (∀ s0 s p r,
     Metrics.run_updates static_shapes remove_zero_labels bs Metrics.initial
     = Some s0 →
     Metrics.update_op static_shapes remove_zero_labels b s0
     = Some (s, (p, r)) →
     Metrics.v_fp s = Metrics.v_tp s ∧
     (∃ k tp',
        (k ≤ length (Metrics.v_scores s))%nat ∧
        Metrics.gather (Metrics.v_tp s)
          (take k (Metrics.top_k (Metrics.v_scores s)).2) = Some tp' ∧
        p = (λ c, if decide (0 < c) then qc 1 2 else 0)
              <$> Metrics.cumsum tp') ∧
     Forall (λ v, v = 0 ∨ v = qc 1 2) p ∧
     Metrics.value_op s = Some ([], []) ∧
     (∀ g : Metrics.batch → list Qc,
        Metrics.run_updates static_shapes remove_zero_labels
          ((λ b, Spec.with_fp b (g b)) <$> bs) Metrics.initial = Some s0 ∧
        Metrics.update_op static_shapes remove_zero_labels
          (Spec.with_fp b (g b)) s0 = Some (s, (p, r)))).
Proof.
  split.
  - intros Hbs Hb.
    destruct (run_updates_one_shape static_shapes remove_zero_labels bs
                Metrics.initial) as (s0 & Hs0 & Ha0); [done|done|].
    destruct (update_op_one_shape static_shapes remove_zero_labels b s0 Ha0 Hb)
      as (s & c & Hu & _).
    by exists s0, s, c.
  - intros s0 s p r Hrun Hu.
    assert (Heq0 : Metrics.v_fp s0 = Metrics.v_tp s0)
      by (by apply (run_updates_fp_is_tp static_shapes remove_zero_labels bs
                      Metrics.initial s0)).
    pose proof Hu as Hu'.
    apply update_op_inv in Hu' as (Ha & tp' & fp' & Hk & Htp & Hfp & Hp & _).
    assert (Heq : Metrics.v_fp s = Metrics.v_tp s)
      by (by eapply assign_ops_fp_is_tp).
    rewrite Heq, Htp in Hfp. simplify_eq.
    rewrite precision_of_equal_flags in Hu |- *.
    split_and!; [done| | |apply value_op_empty|].
    + eexists _, fp'. split; [exact Hk|]. split; [exact Htp|]. reflexivity.
    + apply Forall_fmap, Forall_forall. intros c _. simpl. case_decide; auto.
    + intros g. by rewrite run_updates_with_fp, update_op_with_fp.
Qed.

Lemma precision_is_zero_or_half_witness :
  Forall Spec.one_shape [Examples.mixed_batch] ∧
  Spec.one_shape Examples.tied_miss ∧
  ∃ s0 s c,
    Metrics.run_updates true false [Examples.mixed_batch] Metrics.initial
    = Some s0 ∧
    Metrics.update_op true false Examples.tied_miss s0 = Some (s, c) ∧
    Forall (λ v, v = 0 ∨ v = qc 1 2) c.1.
Proof.
  assert (Hw : Forall Spec.one_shape [Examples.mixed_batch])
    by (repeat constructor).
  assert (Hb : Spec.one_shape Examples.tied_miss) by (split; reflexivity).
  split; [exact Hw|]. split; [exact Hb|].
  destruct (precision_is_zero_or_half true false [Examples.mixed_batch]
              Examples.tied_miss) as [Htotal Hall].
  destruct (Htotal Hw Hb) as (s0 & s & [p r] & Hs0 & Hu).
  exists s0, s, (p, r). split; [exact Hs0|]. split; [exact Hu|].
  exact (proj1 (proj2 (proj2 (Hall s0 s p r Hs0 Hu)))).
Defined.

(** C9, as stated, fails on the derived value: two batches whose detections
    have the same score make the last update return, with
    [remove_zero_labels] disabled, different precision/recall values in the
    two orders (equal scores keep their order of arrival in the sort), both
    with shapes known at run time, where the curve has a point per
    detection, and with static shapes, where it has one point. *)
Lemma tied_scores_order_matters :
  [Examples.tied_hit; Examples.tied_miss]
    ≡ₚ [Examples.tied_miss; Examples.tied_hit] ∧
  snd <$> Metrics.run_updates_returning false false
            [Examples.tied_hit; Examples.tied_miss] Metrics.initial ([], [])
  = Some ([qc 1 2; qc 1 2], [qc 1 2; qc 1 2]) ∧
  snd <$> Metrics.run_updates_returning false false
            [Examples.tied_miss; Examples.tied_hit] Metrics.initial ([], [])
  = Some ([0; qc 1 2], [0; qc 1 2]) ∧
  snd <$> Metrics.run_updates_returning true false
            [Examples.tied_hit; Examples.tied_miss] Metrics.initial ([], [])
  = Some ([qc 1 2], [qc 1 2]) ∧
  snd <$> Metrics.run_updates_returning true false
            [Examples.tied_miss; Examples.tied_hit] Metrics.initial ([], [])
  = Some ([0], [0]) ∧
  ∀ static_shapes,
    snd <$> Metrics.run_updates_returning static_shapes false
              [Examples.tied_hit; Examples.tied_miss] Metrics.initial ([], [])
    ≠ snd <$> Metrics.run_updates_returning static_shapes false
                [Examples.tied_miss; Examples.tied_hit] Metrics.initial
                ([], []).
Proof.
  split_and!; [apply Permutation_swap|qc_eval|qc_eval|qc_eval|qc_eval|].
  intros []; apply (bool_decide_unpack _); vm_compute; reflexivity.
Qed.

(** C9 (amended): with [remove_zero_labels] disabled and batches whose
    flags have the shape of their scores, every permutation of the batches
    ends with the same ground-truth count and the same multisets of
    accumulated scores, true-positive flags and false-positive flags, and
    with the same value tensor; the precision/recall value returned by the
    last update is the same whenever the accumulated scores are pairwise
    distinct (and, with static shapes, every batch has the size the graph
    was built for). *)
Theorem streaming_order_independence
    (static_shapes : bool) (bs bs' : list Metrics.batch)
    (r0 : list Qc * list Qc) :
  bs ≡ₚ bs' →
  Forall Spec.well_shaped bs →
  ∃ s s' r r',
    Metrics.run_updates_returning static_shapes false bs Metrics.initial r0
    = Some (s, r) ∧
    Metrics.run_updates_returning static_shapes false bs' Metrics.initial r0
    = Some (s', r') ∧
    Metrics.v_nobjects s = Metrics.v_nobjects s' ∧
    Metrics.v_scores s ≡ₚ Metrics.v_scores s' ∧
    Metrics.v_tp s ≡ₚ Metrics.v_tp s' ∧
    Metrics.v_fp s ≡ₚ Metrics.v_fp s' ∧
    Metrics.value_op s = Metrics.value_op s' ∧
    (NoDup (Metrics.v_scores s) → Spec.conforming static_shapes bs → r = r').
Proof.
  intros Hp Hbs.
  assert (Hbs' : Forall Spec.well_shaped bs') by (by rewrite <- Hp).
  assert (Hinit : Spec.aligned Metrics.initial) by done.
  destruct (run_updates_returning_appended static_shapes bs _ r0 Hinit Hbs)
    as (p & r & Hc & Hrun).
  destruct (run_updates_returning_appended static_shapes bs' _ r0 Hinit Hbs')
    as (p' & r' & Hc' & Hrun').
  eexists _, _, _, _. split; [exact Hrun|]. split; [exact Hrun'|].
  split_and!.
  - by apply foldl_appended_nobjects.
  - rewrite !foldl_appended_scores. by rewrite Hp.
  - rewrite !foldl_appended_tp. by rewrite Hp.
  - rewrite !foldl_appended_fp. by rewrite Hp.
  - by rewrite !value_op_empty.
  - intros Hnd Hconf.
    rewrite (accumulated_curve_permutation bs bs' Hp Hbs Hnd), Hc' in Hc.
    simplify_eq.
    destruct (last bs) as [b|] eqn:Hb.
    + assert (Hin : b ∈ bs) by (by apply last_Some_elem_of).
      destruct (last bs') as [b'|] eqn:Hb'.
      2:{ apply last_None in Hb'. subst bs'.
          apply Permutation_nil_r in Hp. by subst bs. }
      assert (Hin' : b' ∈ bs).
      { rewrite Hp. by apply last_Some_elem_of. }
      unfold Metrics.scores_op_size, Metrics.reshape_flat.
      destruct static_shapes; [|done]. simpl.
      destruct (Hconf eq_refl) as [size Hsize].
      rewrite Forall_forall in Hsize.
      by rewrite (Hsize b Hin), (Hsize b' Hin').
    + apply last_None in Hb. subst bs.
      apply Permutation_nil_l in Hp. by subst bs'.
Qed.

Lemma streaming_order_independence_witness :
  [Examples.tied_hit; Examples.mixed_batch]
    ≡ₚ [Examples.mixed_batch; Examples.tied_hit] ∧
  Forall Spec.well_shaped [Examples.tied_hit; Examples.mixed_batch] ∧
  ∃ s s' r r',
    Metrics.run_updates_returning false false
      [Examples.tied_hit; Examples.mixed_batch] Metrics.initial ([], [])
    = Some (s, r) ∧
    Metrics.run_updates_returning false false
      [Examples.mixed_batch; Examples.tied_hit] Metrics.initial ([], [])
    = Some (s', r') ∧
    Metrics.v_nobjects s = Metrics.v_nobjects s'.
Proof.
  assert (Hp : [Examples.tied_hit; Examples.mixed_batch]
                 ≡ₚ [Examples.mixed_batch; Examples.tied_hit])
    by apply Permutation_swap.
  assert (Hw : Forall Spec.well_shaped
                 [Examples.tied_hit; Examples.mixed_batch])
    by (repeat constructor).
  split; [exact Hp|]. split; [exact Hw|].
  destruct (streaming_order_independence false _ _ ([], []) Hp Hw)
    as (s & s' & r & r' & Hs & Hs' & Hn & _).
  exists s, s', r, r'. split; [exact Hs|]. split; [exact Hs'|exact Hn].
Defined.

(** ** Facts about [precision_recall_values] *)

Section PrecisionAtRecallFacts.
Import Metrics.

Lemma Qc_min_nonneg (a b : Qc) : 0 ≤ a → 0 ≤ b → 0 ≤ Qc_min a b.
Proof. intros. unfold Qc_min. by case_decide. Qed.

Lemma Qc_min_zero_l (b : Qc) : 0 ≤ b → Qc_min 0 b = 0.
Proof. intros. unfold Qc_min. by rewrite decide_True. Qed.

Lemma Qc_min_zero_r (a : Qc) : 0 ≤ a → Qc_min a 0 = 0.
Proof.
  intros Ha. unfold Qc_min. case_decide; [|done]. by apply Qcle_antisym.
Qed.

Lemma foldr_min_nonneg (v : Qc) (x : list Qc) :
  0 ≤ v → Forall (Qcle 0) x → 0 ≤ foldr Qc_min v x.
Proof.
  intros Hv. induction 1; simpl; [done|]. by apply Qc_min_nonneg.
Qed.

(** A non-negative tensor that holds a zero has minimum zero. *)
Lemma reduce_min_zero (x : list Qc) :
  Forall (Qcle 0) x → 0 ∈ x → reduce_min x = Value 0.
Proof.
  intros Hx Hin. destruct x as [|v x]; [by apply elem_of_nil in Hin|].
  simpl. f_equal. apply Forall_cons in Hx as [Hv Hx].
  revert v Hv Hin. induction Hx as [|w x Hw Hx IH]; intros v Hv Hin.
  - by apply list_elem_of_singleton in Hin.
  - simpl. rewrite !elem_of_cons in Hin.
    destruct Hin as [Hv0|[Hw0|Hx0]].
    + rewrite IH; [by apply Qc_min_zero_r|done|]. rewrite Hv0. by left.
    + rewrite <- Hw0. apply Qc_min_zero_l. by apply foldr_min_nonneg.
    + rewrite IH; [by apply Qc_min_zero_r|done|]. by right.
Qed.

(** What the code computes for one target: the mask multiplies the
    precision of every point above the target by 0, and the zero stays
    in the tensor that is reduced. *)
Lemma precision_recall_values_above (x : Qc) (precision recall : list Qc)
    (i : nat) (r : Qc) :
  length precision = length recall →
  Forall (Qcle 0) precision →
  recall !! i = Some r → x < r →
  precision_recall_values [x] precision recall = Some [Value 0].
Proof.
  intros Hlen Hnn Hi Hr. unfold precision_recall_values. simpl.
  unfold elementwise. rewrite decide_True by (by rewrite !length_fmap).
  simpl. do 2 f_equal. apply reduce_min_zero.
  - apply Forall_forall. intros v Hv.
    apply list_elem_of_lookup in Hv as [j Hj].
    apply lookup_zip_with_Some in Hj as (p & m & -> & Hp & Hm).
    rewrite !list_lookup_fmap in Hm.
    destruct (recall !! j) as [rj|]; simplify_eq/=.
    assert (0 ≤ p) by (by eapply (Forall_lookup_1 _ _ _ _ Hnn)).
    case_bool_decide; simpl.
    + by rewrite Qcmult_1_r.
    + by rewrite Qcmult_0_r.
  - destruct (lookup_lt_is_Some_2 precision i) as [p Hp].
    { rewrite Hlen. by eapply lookup_lt_Some. }
    apply list_elem_of_lookup. exists i.
    rewrite lookup_zip_with, Hp, !list_lookup_fmap, Hi. simpl.
    rewrite bool_decide_eq_false_2 by (by apply Qclt_not_le).
    simpl. by rewrite Qcmult_0_r.
Qed.
End PrecisionAtRecallFacts.

(** C5 at its failing input: the update on one batch with two ground-truth
    boxes and two true-positive detections returns the curve
    precision = [1/2; 1/2], recall = [1/2; 1]; for the target recall 1/2,
    [precision_recall_values] returns 0 on that curve, while the minimum
    precision among the points whose recall is at most 1/2 is 1/2. *)
Theorem precision_at_recall_masks_to_zero :
  (∀ static_shapes,
     snd <$> Metrics.update_op static_shapes true Examples.two_hits
               Metrics.initial
     = Some ([qc 1 2; qc 1 2], [qc 1 2; 1])) ∧
  Metrics.precision_recall_values [qc 1 2] [qc 1 2; qc 1 2] [qc 1 2; 1]
  = Some [Metrics.Value 0] ∧
  Spec.min_precision_at (qc 1 2) [qc 1 2; qc 1 2] [qc 1 2; 1]
  = Metrics.Value (qc 1 2).
Proof. split_and!; [intros []; qc_eval|qc_eval|qc_eval]. Qed.

(** ** Facts about [get_preprocessing] *)

Section FactoryFacts.
Import PreprocessingFactory.
Context {Image Kwargs Out : Type}.
Variable preprocess_image : family → Image → Z → Z → bool → Kwargs → Out.

Lemma lookup_family_of (name : string) :
  preprocessing_fn_map !! name = Spec.family_of name.
Proof.
  unfold Spec.family_of.
  destruct (decide (name ∈ Spec.vgg_names)) as [Hv|Hv].
  { unfold Spec.vgg_names in Hv. rewrite !elem_of_cons, elem_of_nil in Hv.
    destruct Hv as [->|[->|[->|[->|[->|[]]]]]]; by vm_compute. }
  destruct (decide (name ∈ Spec.inception_names)) as [Hi|Hi].
  { unfold Spec.inception_names in Hi. rewrite !elem_of_cons, elem_of_nil in Hi.
    destruct Hi as [->|[->|[->|[->|[->|[]]]]]]; by vm_compute. }
  apply not_elem_of_list_to_map_1. simpl.
  unfold Spec.vgg_names in Hv. unfold Spec.inception_names in Hi.
  rewrite !elem_of_cons, elem_of_nil in *. tauto.
Qed.

(** C7: [get_preprocessing] is total.  For each of the five VGG names and
    the five Inception names (compared as they are written) it returns a
    function that forwards to [preprocess_image] of that family with the
    [is_training] given at selection; for every other name it raises the
    error with the message "Preprocessing name [<name>] was not
    recognized". *)
Theorem get_preprocessing_total (name : string) (is_training : bool) :
  match Spec.family_of name with
  | Some m =>
      ∃ fn, get_preprocessing preprocess_image name is_training = inr fn ∧
            ∀ image output_height output_width kwargs,
              fn image output_height output_width kwargs
              = inr (preprocess_image m image output_height output_width
                       is_training kwargs)
  | None =>
      get_preprocessing preprocess_image name is_training
      = inl (ValueError
               ("Preprocessing name [" +:+ name +:+ "] was not recognized"))
  end.
Proof.
  pose proof (lookup_family_of name) as Hl. unfold get_preprocessing.
  destruct (Spec.family_of name) as [m|].
  - rewrite decide_False.
    2:{ intros Hn. apply Hn, elem_of_dom. by rewrite Hl. }
    eexists. split; [done|]. intros. by rewrite Hl.
  - rewrite decide_True; [done|]. by rewrite not_elem_of_dom.
Qed.
End FactoryFacts.

(** The names are compared as written: no other capitalisation is accepted. *)
Example get_preprocessing_case_sensitive :
  PreprocessingFactory.get_preprocessing
    (λ _ (_ : unit) _ _ _ (_ : unit), tt) "VGG" false
  = inl (ValueError "Preprocessing name [VGG] was not recognized").
Proof. reflexivity. Qed.

(** ** Facts about the driver, [eval_ssd_network.py] *)

Section DriverFacts.
Import EvalSSD.

Variable get_dataset : string → string → string → result Z.
Variable get_network : string → result unit.
Variable is_directory : string → bool.
Variable latest_checkpoint : string → string.

Lemma num_batches_configured (FLAGS : flags) (n num_samples : Z) :
  max_num_batches FLAGS = Some n → n ≠ 0%Z →
  num_batches FLAGS num_samples = inr n.
Proof.
  intros Hmax Hn. unfold num_batches. rewrite Hmax. simpl.
  by destruct (Z.eqb_spec n 0).
Qed.

Lemma num_batches_derived (FLAGS : flags) (num_samples : Z) :
  max_num_batches FLAGS = None ∨ max_num_batches FLAGS = Some 0%Z →
  num_batches FLAGS num_samples = ceil_div num_samples (batch_size FLAGS).
Proof. intros [H|H]; unfold num_batches; by rewrite H. Qed.

(** Without a dataset directory [main] raises at once and the list of
    events is untouched. *)
Lemma main_without_dataset_dir (FLAGS : flags) (tr : list event) :
  truthy_str (dataset_dir FLAGS) = false →
  main get_dataset get_network is_directory latest_checkpoint FLAGS tr
  = (tr, inl (ValueError
       "You must supply the dataset directory with --dataset_dir")).
Proof. intros H. unfold main. by rewrite H. Qed.

Lemma resolved_preprocessing_name_eq (FLAGS : flags) :
  (if truthy_str (preprocessing_name FLAGS)
   then default EmptyString (preprocessing_name FLAGS)
   else model_name FLAGS)
  = Spec.resolved_preprocessing_name FLAGS.
Proof.
  unfold Spec.resolved_preprocessing_name.
  destruct (preprocessing_name FLAGS) as [name|]; [|done]. simpl.
  destruct (String.eqb_spec name EmptyString); by case_decide.
Qed.

Lemma truthy_str_Some (dir : string) :
  dir ≠ EmptyString → truthy_str (Some dir) = true.
Proof. intros Hne. simpl. by destruct (String.eqb_spec dir EmptyString). Qed.

Lemma truthy_str_true (v : option string) :
  truthy_str v = true → ∃ dir, v = Some dir ∧ dir ≠ EmptyString.
Proof.
  destruct v as [dir|]; [|done]. simpl.
  destruct (String.eqb_spec dir EmptyString); [done|]. eauto.
Qed.

(** The call of line 132 passes four positional arguments to a function
    of three. *)
Lemma bind_positional_4 :
  PreprocessingFactory.bind_positional 4 = inl TypeError.
Proof. done. Qed.

(** With a preprocessing name the factory knows, [main] gets as far as the
    data provider and raises at the call of the preprocessing function. *)
Lemma main_type_error (FLAGS : flags) (dir : string) (num_samples : Z) :
  dataset_dir FLAGS = Some dir → dir ≠ EmptyString →
  get_dataset (dataset_name FLAGS) (dataset_split_name FLAGS) dir
  = inr num_samples →
  get_network (model_name FLAGS) = inr tt →
  Spec.resolved_preprocessing_name FLAGS
    ∈ dom PreprocessingFactory.preprocessing_fn_map →
  main get_dataset get_network is_directory latest_checkpoint FLAGS []
  = ([SetVerbosity; GlobalStep;
      GetDataset (dataset_name FLAGS) (dataset_split_name FLAGS) dir;
      GetNetwork (model_name FLAGS);
      GetPreprocessing (Spec.resolved_preprocessing_name FLAGS);
      DataProvider (2 * batch_size FLAGS) (batch_size FLAGS)],
     inl TypeError).
Proof.
  intros Hdir Hne Hds Hnet Hname.
  unfold main. rewrite Hdir, truthy_str_Some by done. simpl.
  rewrite resolved_preprocessing_name_eq.
  unfold mbind, M_bind, emit, lift. simpl. rewrite Hds, Hnet.
  unfold PreprocessingFactory.get_preprocessing.
  by rewrite decide_False by (by intros H; apply H).
Qed.

Lemma main_unknown_preprocessing_name (FLAGS : flags) (dir : string)
    (num_samples : Z) :
  dataset_dir FLAGS = Some dir → dir ≠ EmptyString →
  get_dataset (dataset_name FLAGS) (dataset_split_name FLAGS) dir
  = inr num_samples →
  get_network (model_name FLAGS) = inr tt →
  Spec.resolved_preprocessing_name FLAGS
    ∉ dom PreprocessingFactory.preprocessing_fn_map →
  main get_dataset get_network is_directory latest_checkpoint FLAGS []
  = ([SetVerbosity; GlobalStep;
      GetDataset (dataset_name FLAGS) (dataset_split_name FLAGS) dir;
      GetNetwork (model_name FLAGS);
      GetPreprocessing (Spec.resolved_preprocessing_name FLAGS)],
     inl (ValueError (PreprocessingFactory.not_recognized
                        (Spec.resolved_preprocessing_name FLAGS)))).
Proof.
  intros Hdir Hne Hds Hnet Hname.
  unfold main. rewrite Hdir, truthy_str_Some by done. simpl.
  rewrite resolved_preprocessing_name_eq.
  unfold mbind, M_bind, emit, lift. simpl. rewrite Hds, Hnet.
  unfold PreprocessingFactory.get_preprocessing.
  by rewrite decide_True.
Qed.

Lemma main_dataset_error (FLAGS : flags) (dir : string) (e : exn) :
  dataset_dir FLAGS = Some dir → dir ≠ EmptyString →
  get_dataset (dataset_name FLAGS) (dataset_split_name FLAGS) dir = inl e →
  main get_dataset get_network is_directory latest_checkpoint FLAGS []
  = ([SetVerbosity; GlobalStep;
      GetDataset (dataset_name FLAGS) (dataset_split_name FLAGS) dir],
     inl e).
Proof.
  intros Hdir Hne Hds.
  unfold main. rewrite Hdir, truthy_str_Some by done. simpl.
  unfold mbind, M_bind, emit, lift. simpl. by rewrite Hds.
Qed.

Lemma main_network_error (FLAGS : flags) (dir : string) (num_samples : Z)
    (e : exn) :
  dataset_dir FLAGS = Some dir → dir ≠ EmptyString →
  get_dataset (dataset_name FLAGS) (dataset_split_name FLAGS) dir
  = inr num_samples →
  get_network (model_name FLAGS) = inl e →
  main get_dataset get_network is_directory latest_checkpoint FLAGS []
  = ([SetVerbosity; GlobalStep;
      GetDataset (dataset_name FLAGS) (dataset_split_name FLAGS) dir;
      GetNetwork (model_name FLAGS)],
     inl e).
Proof.
  intros Hdir Hne Hds Hnet.
  unfold main. rewrite Hdir, truthy_str_Some by done. simpl.
  unfold mbind, M_bind, emit, lift. simpl. by rewrite Hds, Hnet.
Qed.

(** Whatever the flags and the collaborators, [main] raises, and it does
    so before the evaluation. *)
Lemma main_never_evaluates (FLAGS : flags) :
  (∃ e, (main get_dataset get_network is_directory latest_checkpoint
           FLAGS []).2 = inl e) ∧
  ∀ checkpoint n,
    EvaluateOnce checkpoint n
      ∉ (main get_dataset get_network is_directory latest_checkpoint
           FLAGS []).1.
Proof.
  destruct (truthy_str (dataset_dir FLAGS)) eqn:Hdir.
  2:{ rewrite main_without_dataset_dir by done. simpl.
      split; [by eexists|]. intros ? ?. apply not_elem_of_nil. }
  apply truthy_str_true in Hdir as (dir & Hdir & Hne).
  destruct (get_dataset (dataset_name FLAGS) (dataset_split_name FLAGS) dir)
    as [e|num_samples] eqn:Hds.
  { rewrite (main_dataset_error _ dir e) by done. simpl.
    split; [by eexists|]. intros ? ?.
    rewrite !elem_of_cons, elem_of_nil. by intros [?|[?|[?|?]]]. }
  destruct (get_network (model_name FLAGS)) as [e|[]] eqn:Hnet.
  { rewrite (main_network_error _ dir num_samples e) by done. simpl.
    split; [by eexists|]. intros ? ?.
    rewrite !elem_of_cons, elem_of_nil. by intros [?|[?|[?|[?|?]]]]. }
  destruct (decide (Spec.resolved_preprocessing_name FLAGS
                     ∈ dom PreprocessingFactory.preprocessing_fn_map))
    as [Hname|Hname].
  - rewrite (main_type_error _ dir num_samples) by done. simpl.
    split; [by eexists|]. intros ? ?.
    rewrite !elem_of_cons, elem_of_nil. by intros [?|[?|[?|[?|[?|[?|?]]]]]].
  - rewrite (main_unknown_preprocessing_name _ dir num_samples) by done. simpl.
    split; [by eexists|]. intros ? ?.
    rewrite !elem_of_cons, elem_of_nil. by intros [?|[?|[?|[?|[?|?]]]]].
Qed.
End DriverFacts.

(** C8 at its failing input: with [max_num_batches] set to 3, a dataset of
    950 samples and collaborators that return, [main] raises [TypeError] at
    the call of the preprocessing function (line 132), after the data
    provider and before any batch, metric or evaluation exists; lines
    238-242, which would compute 3 (and 10 with the flag unset), are not
    reached.  No flags and no collaborators make [main] reach the
    evaluation. *)
Theorem main_raises_before_counting_batches :
  EvalSSD.max_num_batches (Examples.flags_with_max (Some 3%Z)) = Some 3%Z ∧
  EvalSSD.main (λ _ _ _, inr 950%Z) (λ _, inr tt) (λ _, true) (λ p, p)
    (Examples.flags_with_max (Some 3%Z)) []
  = ([EvalSSD.SetVerbosity; EvalSSD.GlobalStep;
      EvalSSD.GetDataset "pascalvoc_2007" "test" "/data/voc";
      EvalSSD.GetNetwork "ssd_300_vgg";
      EvalSSD.GetPreprocessing "ssd_300_vgg";
      EvalSSD.DataProvider 200 100],
     inl TypeError) ∧
  EvalSSD.num_batches (Examples.flags_with_max (Some 3%Z)) 950 = inr 3%Z ∧
  EvalSSD.num_batches (Examples.flags_with_max None) 950 = inr 10%Z ∧
  (∀ get_dataset get_network is_directory latest_checkpoint FLAGS,
     (∃ e, (EvalSSD.main get_dataset get_network is_directory
              latest_checkpoint FLAGS []).2 = inl e) ∧
     ∀ checkpoint n,
       EvalSSD.EvaluateOnce checkpoint n
         ∉ (EvalSSD.main get_dataset get_network is_directory
              latest_checkpoint FLAGS []).1).
Proof.
  split_and!; [done|by vm_compute|by vm_compute|by vm_compute|].
  intros. apply main_never_evaluates.
Qed.

(** C10, as stated, fails on the message: with the dataset directory absent
    the error raised is not the one whose message is "You must supply the
    dataset directory". *)
Lemma main_error_message_differs :
  EvalSSD.dataset_dir EvalSSD.default_flags = None ∧
  (EvalSSD.main (λ _ _ _, inr 0%Z) (λ _, inr tt) (λ _, false) (λ p, p)
     EvalSSD.default_flags []).2
  ≠ inl (ValueError "You must supply the dataset directory").
Proof. split; [done|]. vm_compute. intros H. discriminate H. Qed.

(** C10 (amended): if the dataset directory is absent, the driver raises
    before constructing anything, with the message "You must supply the
    dataset directory with --dataset_dir"; no dataset, model or metric
    event is produced, whatever the collaborators are. *)
Theorem main_fails_fast_without_dataset_dir
    (get_dataset : string → string → string → result Z)
    (get_network : string → result unit)
    (is_directory : string → bool) (latest_checkpoint : string → string)
    (FLAGS : EvalSSD.flags) :
  EvalSSD.dataset_dir FLAGS = None →
  EvalSSD.main get_dataset get_network is_directory latest_checkpoint FLAGS []
  = ([], inl (ValueError
       "You must supply the dataset directory with --dataset_dir")).
Proof.
  intros H. apply main_without_dataset_dir. by rewrite H.
Qed.

Lemma main_fails_fast_without_dataset_dir_witness :
  EvalSSD.dataset_dir EvalSSD.default_flags = None ∧
  EvalSSD.main (λ _ _ _, inr 950%Z) (λ _, inr tt) (λ _, true) (λ p, p)
    EvalSSD.default_flags []
  = ([], inl (ValueError
       "You must supply the dataset directory with --dataset_dir")).
Proof.
  split; [reflexivity|].
  apply main_fails_fast_without_dataset_dir. reflexivity.
Defined.

(** * Part III: further facts about the code *)

(** ** Order and bounds of the curve of [_precision_recall] *)

Section CurveFacts.
Import Metrics.

Lemma Qcdiv_le_mono (a b d : Qc) : 0 < d → a ≤ b → a / d ≤ b / d.
Proof.
  intros Hd Hab. unfold Qcdiv. apply Qcmult_le_mono_nonneg_r; [|done].
  by apply Qclt_le_weak, Qcinv_pos.
Qed.

Lemma Qcdiv_nonneg (a d : Qc) : 0 < d → 0 ≤ a → 0 ≤ a / d.
Proof.
  intros Hd Ha. unfold Qcdiv. apply Qcmult_nonneg_nonneg; [done|].
  by apply Qclt_le_weak, Qcinv_pos.
Qed.

Lemma Qcdiv_le_1 (a d : Qc) : 0 < d → a ≤ d → a / d ≤ 1.
Proof.
  intros Hd Had. rewrite <- (Qcmult_inv_r d) by (by apply Qclt_not_eq in Hd).
  by apply Qcdiv_le_mono.
Qed.

Lemma safe_div_elem_mono (a b d : Qc) :
  a ≤ b → safe_div_elem a d ≤ safe_div_elem b d.
Proof.
  intros Hab. unfold safe_div_elem. case_decide; [|done].
  by apply Qcdiv_le_mono.
Qed.

Lemma safe_div_elem_nonneg (a d : Qc) : 0 ≤ a → 0 ≤ safe_div_elem a d.
Proof.
  intros Ha. unfold safe_div_elem. case_decide; [|done].
  by apply Qcdiv_nonneg.
Qed.

Lemma safe_div_elem_le_1 (a d : Qc) : a ≤ d → safe_div_elem a d ≤ 1.
Proof.
  intros Had. unfold safe_div_elem. case_decide; [|done].
  by apply Qcdiv_le_1.
Qed.

Lemma cumsum_from_bounds (acc : Qc) (x : list Qc) :
  Forall (Qcle 0) x →
  Forall (λ c, acc ≤ c ≤ acc + Spec.total x) (cumsum_from acc x).
Proof.
  intros Hx. revert acc.
  induction Hx as [|v x Hv Hx IH]; intros acc; simpl; [constructor|].
  assert (Hx' : 0 ≤ Spec.total x).
  { clear IH. induction Hx as [|w x Hw Hx IH']; [done|].
    rewrite total_cons. by apply Qcplus_nonneg_nonneg. }
  rewrite total_cons. constructor.
  - split.
    + rewrite <- (Qcplus_0_r acc) at 1. by apply Qcplus_le_mono_l.
    + apply Qcplus_le_mono_l. rewrite <- (Qcplus_0_r v) at 1.
      by apply Qcplus_le_mono_l.
  - eapply Forall_impl; [apply IH|]. intros c [Hlo Hhi]. simpl in *. split.
    + etrans; [|done]. rewrite <- (Qcplus_0_r acc) at 1.
      by apply Qcplus_le_mono_l.
    + by rewrite Qcplus_assoc.
Qed.

Lemma cumsum_from_sorted (acc : Qc) (x : list Qc) :
  Forall (Qcle 0) x → Sorted Qcle (cumsum_from acc x).
Proof.
  intros Hx. revert acc.
  induction Hx as [|v x Hv Hx IH]; intros acc; simpl; [constructor|].
  constructor; [apply IH|].
  pose proof (cumsum_from_bounds (acc + v) x Hx) as Hb.
  destruct Hb as [|c l [Hc _] _]; by constructor.
Qed.

Lemma gather_Forall {A} (P : A → Prop) (params l : list A) (indices : list nat) :
  gather params indices = Some l → Forall P params → Forall P l.
Proof.
  intros Hg HP. apply mapM_Some in Hg.
  induction Hg as [|i y idx l Hi _ IH]; constructor; [|done].
  by eapply (Forall_lookup_1 _ _ _ _ HP).
Qed.

End CurveFacts.


(** X2: for non-negative true-positive values the recall sequence never
    decreases along the ranks and is never negative, whatever the
    ground-truth count. *)
Theorem recall_non_decreasing (n : Z) (scores tp fp p r : list Qc) :
  Forall (Qcle 0) tp →
  Metrics._precision_recall n scores tp fp = Some (p, r) →
  Sorted Qcle r ∧ Forall (Qcle 0) r.
Proof.
  intros Htp Hpr.
  apply precision_recall_inv in Hpr as (tp' & fp' & Hg & _ & _ & ->).
  pose proof (gather_Forall _ _ _ _ Hg Htp) as Htp'. split.
  - eapply Sorted_fmap; [|by apply cumsum_from_sorted].
    intros a b Hab. by apply safe_div_elem_mono.
  - apply Forall_fmap. eapply Forall_impl; [by apply cumsum_from_bounds|].
    intros c [Hc _]. by apply safe_div_elem_nonneg.
Qed.

Lemma recall_non_decreasing_witness :
  Forall (Qcle 0) [1; 0; 1] ∧
  ∃ p r, Metrics._precision_recall 2 [qc 1 2; qc 9 10; qc 3 4] [1; 0; 1] [0; 1; 0]
         = Some (p, r) ∧ Sorted Qcle r.
Proof.
  assert (Hnn : Forall (Qcle 0) [1; 0; 1]).
  { repeat constructor; apply (bool_decide_unpack _); vm_compute; reflexivity. }
  split; [exact Hnn|].
  destruct (Metrics._precision_recall 2 [qc 1 2; qc 9 10; qc 3 4] [1; 0; 1]
              [0; 1; 0]) as [[p r]|] eqn:Hpr.
  - exists p, r. split; [reflexivity|].
    exact (proj1 (recall_non_decreasing _ _ _ _ _ _ Hnn Hpr)).
  - exfalso. vm_compute in Hpr. discriminate Hpr.
Defined.

(** X3: for non-negative true-positive and false-positive values every
    precision lies between 0 and 1. *)
Theorem precision_between_0_and_1 (n : Z) (scores tp fp p r : list Qc) :
  Forall (Qcle 0) tp → Forall (Qcle 0) fp →
  Metrics._precision_recall n scores tp fp = Some (p, r) →
  Forall (λ v, 0 ≤ v ≤ 1) p.
Proof.
  intros Htp Hfp Hpr.
  apply precision_recall_inv in Hpr as (tp' & fp' & Hgt & Hgf & -> & _).
  pose proof (cumsum_from_bounds 0 tp' (gather_Forall _ _ _ _ Hgt Htp)) as Hct.
  pose proof (cumsum_from_bounds 0 fp' (gather_Forall _ _ _ _ Hgf Hfp)) as Hcf.
  apply Forall_forall. intros v Hv.
  apply list_elem_of_lookup in Hv as [i Hi].
  apply lookup_zip_with_Some in Hi as (c & s & -> & Hc & Hs).
  apply lookup_zip_with_Some in Hs as (c' & d & -> & Hc' & Hd).
  unfold Metrics.cumsum in *. simplify_eq.
  destruct (Forall_lookup_1 _ _ _ _ Hct Hc) as [Hc0 _].
  destruct (Forall_lookup_1 _ _ _ _ Hcf Hd) as [Hd0 _]. split.
  - by apply safe_div_elem_nonneg.
  - apply safe_div_elem_le_1. rewrite <- (Qcplus_0_r c) at 1.
    by apply Qcplus_le_mono_l.
Qed.

Lemma precision_between_0_and_1_witness :
  Forall (Qcle 0) [1; 0; 1] ∧ Forall (Qcle 0) [0; 1; 0] ∧
  ∃ p r, Metrics._precision_recall 2 [qc 1 2; qc 9 10; qc 3 4] [1; 0; 1] [0; 1; 0]
         = Some (p, r) ∧ Forall (λ v, 0 ≤ v ≤ 1) p.
Proof.
  assert (Ht : Forall (Qcle 0) [1; 0; 1]).
  { repeat constructor; apply (bool_decide_unpack _); vm_compute; reflexivity. }
  assert (Hf : Forall (Qcle 0) [0; 1; 0]).
  { repeat constructor; apply (bool_decide_unpack _); vm_compute; reflexivity. }
  split; [exact Ht|]. split; [exact Hf|].
  destruct (Metrics._precision_recall 2 [qc 1 2; qc 9 10; qc 3 4] [1; 0; 1]
              [0; 1; 0]) as [[p r]|] eqn:Hpr.
  - exists p, r. split; [reflexivity|].
    exact (precision_between_0_and_1 _ _ _ _ _ _ Ht Hf Hpr).
  - exfalso. vm_compute in Hpr. discriminate Hpr.
Defined.

(** ** Scores that arrive in descending order *)

Section SortedInputFacts.
Import Metrics.

Lemma sort_desc_sorted_id {A} (l : list (Qc * A)) :
  Sorted Spec.key_ge l → sort_desc l = l.
Proof.
  induction 1 as [|x l Hl IH Hhd]; [done|].
  cbn [sort_desc foldr]. fold (sort_desc l). rewrite IH.
  destruct Hhd as [|y l Hxy]; [done|]. cbn [insert_desc].
  rewrite decide_False; [done|]. by apply Qcle_not_lt.
Qed.

Lemma zip_sorted_keys {A} (scores : list Qc) (l : list A) :
  Sorted (λ a b : Qc, b ≤ a) scores → Sorted Spec.key_ge (zip scores l).
Proof.
  intros Hs. revert l.
  induction Hs as [|v scores Hs IH Hhd]; intros [|x l]; simpl;
    try constructor; [apply IH|].
  destruct Hhd as [|w scores Hvw]; [constructor|].
  destruct l; by constructor.
Qed.
End SortedInputFacts.

(** X4: scores that are already in descending order (equal scores allowed)
    are not reordered: the curve is computed from the cumulative sums of
    the flags in their order of arrival. *)
Theorem descending_scores_keep_arrival_order
    (n : Z) (scores tp fp : list Qc) :
  Sorted (λ a b : Qc, b ≤ a) scores →
  length tp = length scores → length fp = length scores →
  (Metrics.top_k scores).2 = seq 0 (length scores) ∧
  Metrics._precision_recall n scores tp fp
  = Some (zip_with Metrics.safe_div_elem (Metrics.cumsum tp)
            (zip_with Qcplus (Metrics.cumsum tp) (Metrics.cumsum fp)),
          (λ v, Metrics.safe_div_elem v (Qc_of_Z n)) <$> Metrics.cumsum tp).
Proof.
  intros Hs Htp Hfp. split.
  - unfold Metrics.top_k. simpl.
    rewrite sort_desc_sorted_id by (by apply zip_sorted_keys).
    by rewrite snd_zip by (by rewrite length_seq).
  - apply precision_recall_unfold.
    + rewrite gather_top_k, sort_desc_sorted_id by (done || by apply zip_sorted_keys).
      by rewrite snd_zip by lia.
    + rewrite gather_top_k, sort_desc_sorted_id by (done || by apply zip_sorted_keys).
      by rewrite snd_zip by lia.
Qed.

Lemma descending_scores_keep_arrival_order_witness :
  Sorted (λ a b : Qc, b ≤ a) [qc 1 2; qc 1 2] ∧
  (Metrics.top_k [qc 1 2; qc 1 2]).2 = [0; 1]%nat.
Proof.
  assert (Hs : Sorted (λ a b : Qc, b ≤ a) [qc 1 2; qc 1 2]).
  { repeat constructor. apply (bool_decide_unpack _). vm_compute. reflexivity. }
  split; [exact Hs|].
  exact (proj1 (descending_scores_keep_arrival_order 1 [qc 1 2; qc 1 2]
                  [1; 0] [0; 1] Hs eq_refl eq_refl)).
Defined.

(** ** What the updates do to the accumulators *)

Section AccumulatorFacts.
Import Metrics.
Implicit Types (b : batch) (s : accumulators) (st rz : bool).

Local Abbreviation class_mask cs := ((λ c, bool_decide (0 < c)%Z) <$> cs).

Lemma assign_ops_true_is_Some st b s :
  is_Some (assign_ops st true b s) ↔
  is_Some (boolean_mask st (rscores b) (class_mask (rclasses b))) ∧
  is_Some (boolean_mask st (tp_tensor b) (class_mask (rclasses b))).
Proof.
  unfold assign_ops, scores_op, tp_op, fp_op, preprocess, reshape_flat.
  destruct (boolean_mask st (rscores b) _) as [sc|];
    destruct (boolean_mask st (tp_tensor b) _) as [tp|]; simpl;
    split; try (by intros [[] []]); try (by intros []); by eauto.
Qed.

Lemma wrap64_add_r (a x : Z) : wrap64 (a + wrap64 x) = wrap64 (a + x).
Proof. by rewrite Z.add_comm, wrap64_add_l, Z.add_comm. Qed.

Lemma wrap64_idem (z : Z) : wrap64 (wrap64 z) = wrap64 z.
Proof. pose proof (wrap64_add_l z 0) as H. by rewrite !Z.add_0_r in H. Qed.

Lemma wrap64_small (z : Z) : (- 2 ^ 63 ≤ z < 2 ^ 63)%Z → wrap64 z = z.
Proof. intros Hz. unfold wrap64. rewrite Z.mod_small; lia. Qed.

Lemma reduce_sum64_wrap (x : list Z) :
  reduce_sum64 x = wrap64 (foldr Z.add 0%Z x).
Proof.
  induction x as [|v x IH]; [done|].
  cbn [reduce_sum64 foldr]. fold (reduce_sum64 x).
  by rewrite IH, wrap64_add_r.
Qed.

Lemma run_updates_nobjects st rz bs s s' :
  run_updates st rz bs s = Some s' →
  wrap64 (v_nobjects s') = wrap64 (v_nobjects s + Spec.ground_truth_total bs).
Proof.
  revert s. induction bs as [|b bs IH]; intros s; simpl.
  - intros; simplify_eq. by rewrite Z.add_0_r.
  - destruct (update_op st rz b s) as [[s1 r]|] eqn:Hu; [|done]. simpl.
    intros Hrun. rewrite (IH _ Hrun).
    apply update_op_assigns in Hu.
    apply assign_ops_inv in Hu as (sc & tp & _ & ->). simpl.
    unfold Spec.ground_truth_total. rewrite bind_cons, foldr_app.
    assert (Hf : ∀ (l : list Z) (a : Z),
              foldr Z.add a l = (foldr Z.add 0 l + a)%Z).
    { induction l as [|z l IHl]; intros a; simpl; [lia|]. rewrite IHl. lia. }
    rewrite (Hf (n_gbboxes b)).
    set (T := foldr Z.add 0%Z (bs ≫= n_gbboxes)).
    set (S := foldr Z.add 0%Z (n_gbboxes b)).
    rewrite wrap64_add_l, reduce_sum64_wrap. fold S.
    replace (v_nobjects s + wrap64 S + T)%Z
      with ((v_nobjects s + T) + wrap64 S)%Z by lia.
    rewrite wrap64_add_r. f_equal. lia.
Qed.

Lemma run_updates_nobjects_canonical st rz bs s s' :
  wrap64 (v_nobjects s) = v_nobjects s →
  run_updates st rz bs s = Some s' → wrap64 (v_nobjects s') = v_nobjects s'.
Proof.
  revert s. induction bs as [|b bs IH]; intros s Hs; simpl.
  - intros; by simplify_eq.
  - destruct (update_op st rz b s) as [[s1 r]|] eqn:Hu; [|done]. simpl.
    apply IH. apply update_op_assigns in Hu.
    apply assign_ops_inv in Hu as (sc & tp & _ & ->). simpl.
    apply wrap64_idem.
Qed.

Lemma run_updates_prefix st rz bs s s' :
  run_updates st rz bs s = Some s' →
  v_scores s `prefix_of` v_scores s' ∧
  v_tp s `prefix_of` v_tp s' ∧
  v_fp s `prefix_of` v_fp s'.
Proof.
  revert s. induction bs as [|b bs IH]; intros s; simpl.
  - intros; by simplify_eq.
  - destruct (update_op st rz b s) as [[s1 r]|] eqn:Hu; [|done]. simpl.
    intros Hrun. destruct (IH _ Hrun) as (H1 & H2 & H3).
    apply update_op_assigns in Hu.
    apply assign_ops_inv in Hu as (sc & tp & _ & ->). simpl in *.
    split_and!; (etrans; [|done]); by apply prefix_app_r.
Qed.

(** The three cleaned tensors of a run have one size, the number of
    positive classes, whatever the sizes of the tensors fed. *)
Lemma assign_ops_true_aligned st b s s' :
  Spec.aligned s → assign_ops st true b s = Some s' → Spec.aligned s'.
Proof.
  intros [Htp Hfp] Ha.
  apply assign_ops_inv in Ha as (sc & tp & [Hsc Htp'] & ->).
  apply length_boolean_mask in Hsc, Htp'.
  unfold Spec.aligned. simpl. rewrite !length_app. lia.
Qed.

Lemma run_updates_true_aligned st bs s s' :
  Spec.aligned s → run_updates st true bs s = Some s' → Spec.aligned s'.
Proof.
  revert s. induction bs as [|b bs IH]; intros s Hs; simpl.
  - intros; by simplify_eq.
  - destruct (update_op st true b s) as [[s1 r]|] eqn:Hu; [|done]. simpl.
    apply IH. apply update_op_assigns in Hu.
    by eapply assign_ops_true_aligned.
Qed.
End AccumulatorFacts.

(** X5: the accumulators only grow: after any sequence of updates the
    earlier scores, true-positive and false-positive arrays are prefixes of
    the later ones; nothing is dropped or rewritten. *)
Theorem accumulators_only_grow
    (static_shapes remove_zero_labels : bool) (bs : list Metrics.batch)
    (s s' : Metrics.accumulators) :
  Metrics.run_updates static_shapes remove_zero_labels bs s = Some s' →
  Metrics.v_scores s `prefix_of` Metrics.v_scores s' ∧
  Metrics.v_tp s `prefix_of` Metrics.v_tp s' ∧
  Metrics.v_fp s `prefix_of` Metrics.v_fp s'.
Proof. apply run_updates_prefix. Qed.

Lemma accumulators_only_grow_witness :
  ∃ s s', Metrics.run_updates false true [Examples.mixed_batch] Metrics.initial
          = Some s ∧
          Metrics.run_updates false true [Examples.two_hits] s = Some s' ∧
          Metrics.v_scores s `prefix_of` Metrics.v_scores s'.
Proof.
  destruct (Metrics.run_updates false true [Examples.mixed_batch]
              Metrics.initial)
    as [s|] eqn:Hs; [|exfalso; vm_compute in Hs; discriminate Hs].
  destruct (Metrics.run_updates false true [Examples.two_hits] s)
    as [s'|] eqn:Hs'.
  - exists s, s'. split; [reflexivity|]. split; [exact Hs'|].
    exact (proj1 (accumulators_only_grow false true _ s s' Hs')).
  - exfalso. vm_compute in Hs. injection Hs as <-.
    vm_compute in Hs'. discriminate Hs'.
Defined.

(** X6: which inputs the assignments of an update reject.  With
    [remove_zero_labels] enabled and static shapes, exactly those whose
    scores or true-positive flags do not have as many elements as the
    classes; with shapes known at run time, exactly those where a detection
    of a positive class lies beyond the scores or beyond the true-positive
    flags, so that shorter and longer tensors can pass.  With the option
    disabled nothing is checked.  The [fp_tensor] argument is never
    looked at. *)
Theorem update_shape_checks (b : Metrics.batch) (s : Metrics.accumulators) :
  (is_Some (Metrics.assign_ops true true b s) ↔
     length (Metrics.rscores b) = length (Metrics.rclasses b) ∧
     length (Metrics.tp_tensor b) = length (Metrics.rclasses b)) ∧
  (is_Some (Metrics.assign_ops false true b s) ↔
     Spec.covers_positive (Metrics.rclasses b) (Metrics.rscores b) ∧
     Spec.covers_positive (Metrics.rclasses b) (Metrics.tp_tensor b)) ∧
  (∀ static_shapes, is_Some (Metrics.assign_ops static_shapes false b s)) ∧
  (∀ static_shapes remove_zero_labels fp,
     Metrics.assign_ops static_shapes remove_zero_labels (Spec.with_fp b fp) s
     = Metrics.assign_ops static_shapes remove_zero_labels b s).
Proof.
  split_and!.
  - by rewrite assign_ops_true_is_Some, !boolean_mask_static, !length_fmap.
  - by rewrite assign_ops_true_is_Some, !boolean_mask_dynamic.
  - intros st. by eexists.
  - done.
Qed.

(** X7: with [remove_zero_labels] enabled, whatever the inputs, after a
    sequence of updates that all return the variables hold as many
    true-positive and false-positive entries as scores.  A run that raises
    can leave them otherwise: with shapes known at run time and one score
    too few, the two flag arrays can be assigned beside untouched
    scores. *)
Theorem filtered_updates_keep_arrays_aligned
    (static_shapes : bool) (bs : list Metrics.batch)
    (s : Metrics.accumulators) :
  (Metrics.run_updates static_shapes true bs Metrics.initial = Some s →
   length (Metrics.v_tp s) = length (Metrics.v_scores s) ∧
   length (Metrics.v_fp s) = length (Metrics.v_scores s)) ∧
  Metrics.after_raise false true Examples.short_scores Metrics.initial
    {| Metrics.v_nobjects := 2; Metrics.v_scores := [];
       Metrics.v_tp := [1; 1]; Metrics.v_fp := [1; 1] |}.
Proof.
  split; [by apply run_updates_true_aligned|].
  split; [done|].
  assert (Ha : Metrics.assign_ops false true Examples.short_scores
                 Metrics.initial = None) by done.
  rewrite Ha. split_and!; [by right|by left|by right|by right].
Qed.

Lemma filtered_updates_keep_arrays_aligned_witness :
  ∃ s, Metrics.run_updates false true [Examples.mixed_batch; Examples.two_hits]
         Metrics.initial = Some s ∧
       length (Metrics.v_tp s) = length (Metrics.v_scores s).
Proof.
  destruct (Metrics.run_updates false true
              [Examples.mixed_batch; Examples.two_hits]
              Metrics.initial) as [s|] eqn:Hs.
  - exists s. split; [reflexivity|].
    exact (proj1 (proj1 (filtered_updates_keep_arrays_aligned false _ s) Hs)).
  - exfalso. vm_compute in Hs. discriminate Hs.
Defined.

(** X8: an update with [remove_zero_labels] enabled appends one entry per
    detection whose class id is positive, so detections with a negative
    class id are dropped like those of class 0; with the option disabled it
    appends every score. *)
Theorem update_appends_positive_classes
    (static_shapes : bool) (b : Metrics.batch) (s s' : Metrics.accumulators) :
  (Metrics.assign_ops static_shapes true b s = Some s' →
     length (Metrics.v_scores s')
     = (length (Metrics.v_scores s)
        + length (filter (λ c, (0 < c)%Z) (Metrics.rclasses b)))%nat) ∧
  (Metrics.assign_ops static_shapes false b s = Some s' →
     length (Metrics.v_scores s')
     = (length (Metrics.v_scores s) + length (Metrics.rscores b))%nat).
Proof.
  split; intros Ha.
  - apply assign_ops_inv in Ha as (sc & tp & [Hsc _] & ->). simpl.
    apply length_boolean_mask in Hsc. by rewrite length_app, Hsc.
  - apply assign_ops_inv in Ha as (sc & tp & [-> _] & ->). simpl.
    by rewrite length_app.
Qed.

(** X9: after any sequence of updates the ground-truth counter is the sum
    of all ground-truth counts fed so far, reduced to the [int64] range; it
    is that sum itself whenever the sum fits in an [int64]. *)
Theorem ground_truth_counter_is_the_sum
    (static_shapes remove_zero_labels : bool) (bs : list Metrics.batch)
    (s : Metrics.accumulators) :
  Metrics.run_updates static_shapes remove_zero_labels bs Metrics.initial
  = Some s →
  Metrics.v_nobjects s = Metrics.wrap64 (Spec.ground_truth_total bs) ∧
  ((- 2 ^ 63 ≤ Spec.ground_truth_total bs < 2 ^ 63)%Z →
   Metrics.v_nobjects s = Spec.ground_truth_total bs).
Proof.
  intros Hrun.
  pose proof (run_updates_nobjects _ _ _ _ _ Hrun) as Hsum.
  assert (Hinit : Metrics.wrap64 (Metrics.v_nobjects Metrics.initial)
                  = Metrics.v_nobjects Metrics.initial) by done.
  rewrite (run_updates_nobjects_canonical _ _ _ _ _ Hinit Hrun) in Hsum.
  simpl in Hsum. split; [done|]. intros Hfit. by rewrite Hsum, wrap64_small.
Qed.

Lemma ground_truth_counter_is_the_sum_witness :
  ∃ s, Metrics.run_updates false true [Examples.mixed_batch; Examples.two_hits]
         Metrics.initial = Some s ∧
       Metrics.v_nobjects s = 4%Z.
Proof.
  destruct (Metrics.run_updates false true
              [Examples.mixed_batch; Examples.two_hits]
              Metrics.initial) as [s|] eqn:Hs.
  - exists s. split; [reflexivity|].
    destruct (ground_truth_counter_is_the_sum false true _ s Hs) as [_ Hfit].
    apply Hfit. vm_compute. split; [discriminate|reflexivity].
  - exfalso. vm_compute in Hs. discriminate Hs.
Defined.

(** ** Shapes and bounds of [average_precision] *)

Section AveragePrecisionBounds.
Import Metrics.

Lemma elementwise_None (f : Qc → Qc → Qc) (a b : list Qc) :
  elementwise f a b = None ↔
  length a ≠ length b ∧ length a ≠ 1%nat ∧ length b ≠ 1%nat.
Proof.
  unfold elementwise. case_decide as Hlen.
  - split; [done|]. by intros [? _].
  - destruct a as [|x [|x' a]], b as [|y [|y' b]]; simpl in *;
      split; try done; try (intros (? & ? & ?); done); intros _; split_and!; lia.
Qed.

Lemma elementwise_same (f : Qc → Qc → Qc) (a b : list Qc) :
  length a = length b → elementwise f a b = Some (zip_with f a b).
Proof. intros. unfold elementwise. by rewrite decide_True. Qed.

(** The code as the sum of its adjacent-pair terms. *)
Lemma average_precision_as_sum (precision recall : list Qc) :
  length precision = length recall →
  average_precision precision recall
  = Some (Spec.riemann_sum precision recall).
Proof.
  intros Hlen. unfold average_precision, Spec.riemann_sum.
  set (P := [0] ++ precision ++ [0]). set (R := [0] ++ recall ++ [1]).
  assert (HP : length P = S (S (length precision)))
    by (unfold P; rewrite !length_app; simpl; lia).
  assert (HR : length R = S (S (length precision)))
    by (unfold R; rewrite !length_app; simpl; lia).
  assert (HE : length (cummax_reverse P) = S (S (length precision)))
    by (by rewrite length_cummax_reverse).
  do 3 (rewrite elementwise_same
          by (unfold slice_from_1, slice_to_last;
              rewrite ?length_fmap, ?length_zip_with, ?length_drop,
                ?length_take, ?HE, ?HR; lia);
        cbn [mbind option_bind]).
  f_equal. rewrite reduce_sum_total. f_equal.
  rewrite (riemann_products _ R (length precision) (Spec.envelope_at P));
    [|done|done|].
  - by replace (length precision + 1)%nat with (S (length precision)) by lia.
  - intros i Hi. apply lookup_cummax_reverse. by rewrite HP.
Qed.

Lemma total_app (x y : list Qc) : Spec.total (x ++ y) = Spec.total x + Spec.total y.
Proof.
  induction x as [|v x IH]; simpl.
  - unfold Spec.total at 2. simpl. by rewrite Qcplus_0_l.
  - by rewrite !total_cons, IH, Qcplus_assoc.
Qed.

(** A sum of terms, each between 0 and [M] times an increment, lies between
    0 and [M] times the whole increase. *)
Lemma total_terms_bound (M : Qc) (e R : nat → Qc) (m : nat) :
  (∀ i, (i < m)%nat → 0 ≤ e i ≤ M) →
  (∀ i, (i < m)%nat → R i ≤ R (S i)) →
  0 ≤ Spec.total ((λ i, e i * (R (S i) - R i)) <$> seq 0 m)
    ≤ M * (R m - R 0%nat).
Proof.
  intros He HR. induction m as [|m IH].
  - simpl. unfold Spec.total. simpl. split; [done|].
    replace (R 0%nat - R 0%nat) with 0 by ring. by rewrite Qcmult_0_r.
  - rewrite seq_S, fmap_app, total_app. simpl.
    rewrite total_cons. unfold Spec.total at 2 4. simpl. rewrite Qcplus_0_r.
    destruct IH as [IHlo IHhi]; [intros; apply He; lia|intros; apply HR; lia|].
    destruct (He m ltac:(lia)) as [Helo Hehi].
    assert (Hd : 0 ≤ R (S m) - R m).
    { apply (proj1 (Qcle_minus_iff (R m) (R (S m)))). apply HR. lia. }
    split.
    + apply Qcplus_nonneg_nonneg; [done|]. by apply Qcmult_nonneg_nonneg.
    + replace (M * (R (S m) - R 0%nat))
        with (M * (R m - R 0%nat) + M * (R (S m) - R m)) by ring.
      apply Qcplus_le_compat; [done|]. by apply Qcmult_le_mono_nonneg_r.
Qed.

Lemma Qc_max_cases (a b : Qc) : Qc_max a b = a ∨ Qc_max a b = b.
Proof. unfold Qc_max. case_decide; auto. Qed.

Lemma envelope_at_bounds (M : Qc) (x : list Qc) (i : nat) :
  0 ≤ M → Forall (λ v, 0 ≤ v ≤ M) x → 0 ≤ Spec.envelope_at x i ≤ M.
Proof.
  intros HM Hx. unfold Spec.envelope_at.
  assert (Hd : Forall (λ v, 0 ≤ v ≤ M) (drop i x)) by (by apply Forall_drop).
  destruct Hd as [|v rest Hv Hrest]; [done|].
  revert v Hv. induction Hrest as [|w rest Hw _ IH]; intros v Hv; [done|].
  simpl. apply IH. by destruct (Qc_max_cases v w) as [->| ->].
Qed.

Lemma Sorted_lookup_S {A} (R : relation A) (l : list A) (i : nat) (a b : A) :
  Sorted R l → l !! i = Some a → l !! S i = Some b → R a b.
Proof.
  intros Hs. revert i. induction Hs as [|x l Hl IH Hhd]; intros i Ha Hb;
    [done|].
  destruct i as [|i]; simpl in *.
  - simplify_eq. destruct Hhd; by simplify_eq/=.
  - by eapply IH.
Qed.

Lemma padded_recall_sorted (recall : list Qc) :
  Sorted Qcle recall → Forall (λ v, 0 ≤ v ≤ 1) recall →
  Sorted Qcle (Spec.padded_recall recall).
Proof.
  intros Hs Hb. unfold Spec.padded_recall. simpl. constructor.
  - apply Sorted_snoc; [done|].
    destruct recall as [|v recall _] using rev_ind; constructor.
    apply Forall_app in Hb as [_ Hv]. by apply Forall_singleton in Hv as [_ ?].
  - destruct Hb as [|v recall [Hv _] _]; simpl; by constructor.
Qed.
End AveragePrecisionBounds.

(** X10: [average_precision] rejects its inputs exactly when the two
    sequences have different lengths and neither is empty; an empty sequence
    beside a non-empty one is broadcast, not rejected. *)
Theorem average_precision_shape_error (precision recall : list Qc) :
  Metrics.average_precision precision recall = None ↔
  length precision ≠ length recall ∧ precision ≠ [] ∧ recall ≠ [].
Proof.
  unfold Metrics.average_precision.
  set (P := [0] ++ precision ++ [0]). set (R := [0] ++ recall ++ [1]).
  assert (HR : length R = S (S (length recall)))
    by (unfold R; rewrite !length_app; simpl; lia).
  assert (HE : length (Metrics.cummax_reverse P) = S (S (length precision))).
  { rewrite length_cummax_reverse. unfold P. rewrite !length_app. simpl. lia. }
  do 2 (rewrite elementwise_same
          by (unfold Metrics.slice_from_1, Metrics.slice_to_last;
              rewrite ?length_drop, ?length_take, ?HE, ?HR; lia);
        cbn [mbind option_bind]).
  unfold Metrics.slice_from_1, Metrics.slice_to_last.
  set (mean_pre := (λ v : Qc, v / 2) <$> _). set (diff_rec := zip_with Qcminus _ _).
  assert (Ha : length mean_pre = S (length precision)).
  { unfold mean_pre.
    rewrite length_fmap, length_zip_with, length_drop, length_take, HE. lia. }
  assert (Hb : length diff_rec = S (length recall)).
  { unfold diff_rec. rewrite length_zip_with, length_drop, length_take, HR. lia. }
  rewrite bind_None, elementwise_None, Ha, Hb. split.
  - intros [(H1 & H2 & H3)|(x & _ & ?)]; [|done].
    split_and!; [lia| |]; intros ->; simpl in *; lia.
  - intros (H1 & Hp & Hr). left.
    destruct precision, recall; try done. simpl in *. split_and!; lia.
Qed.

Lemma average_precision_bounded (M : Qc) (precision recall : list Qc) :
  length precision = length recall →
  0 ≤ M → Forall (λ v, 0 ≤ v ≤ M) precision →
  Sorted Qcle recall → Forall (λ v, 0 ≤ v ≤ 1) recall →
  ∃ ap, Metrics.average_precision precision recall = Some ap ∧ 0 ≤ ap ≤ M.
Proof.
  intros Hlen HM Hp Hs Hr. rewrite average_precision_as_sum by done.
  eexists. split; [done|]. unfold Spec.riemann_sum.
  set (P := Spec.padded_precision precision).
  set (R := Spec.padded_recall recall).
  assert (HP : Forall (λ v, 0 ≤ v ≤ M) P).
  { unfold P, Spec.padded_precision. simpl. constructor; [done|].
    apply Forall_app. split; [done|]. by constructor. }
  assert (HR : length R = S (S (length precision))).
  { unfold R, Spec.padded_recall. rewrite !length_app. simpl. lia. }
  pose proof (padded_recall_sorted recall Hs Hr) as HRs. fold R in HRs.
  replace (length precision + 1)%nat with (S (length precision)) by lia.
  pose proof (total_terms_bound M
                (λ i, (Spec.envelope_at P i + Spec.envelope_at P (S i)) / 2)
                (Spec.at_index R) (S (length precision))) as Hb.
  unfold Spec.riemann_term.
  assert (Hlast : Spec.at_index R (S (length precision)) = 1).
  { unfold R, Spec.padded_recall, Spec.at_index. simpl.
    by rewrite lookup_app_r, Hlen, Nat.sub_diag by lia. }
  assert (Hfirst : Spec.at_index R 0 = 0) by done.
  rewrite Hlast, Hfirst in Hb.
  replace (M * (1 - 0)) with M in Hb by ring.
  apply Hb.
  - intros i Hi.
    destruct (envelope_at_bounds M P i HM HP) as [H1 H2].
    destruct (envelope_at_bounds M P (S i) HM HP) as [H3 H4].
    assert (H2pos : 0 < 2) by (apply (bool_decide_unpack _); vm_compute; reflexivity).
    split.
    + apply Qcdiv_nonneg; [done|]. by apply Qcplus_nonneg_nonneg.
    + replace M with ((M + M) / 2).
      * apply Qcdiv_le_mono; [done|]. by apply Qcplus_le_compat.
      * rewrite Qcplus_diag. unfold Qcdiv.
        rewrite (Qcmult_comm 2), <- Qcmult_assoc, Qcmult_inv_r, Qcmult_1_r;
          [done|by apply Qclt_not_eq in H2pos].
  - intros i Hi.
    eapply (Sorted_lookup_S Qcle R i); [done| |];
      apply lookup_at_index; lia.
Qed.

(** X11: for a curve whose precisions lie between 0 and [M] and whose
    recalls lie between 0 and 1 and never decrease, [average_precision]
    returns a value between 0 and [M]. *)
Theorem average_precision_bounds (M : Qc) (precision recall : list Qc) :
  length precision = length recall →
  0 ≤ M → Forall (λ v, 0 ≤ v ≤ M) precision →
  Sorted Qcle recall → Forall (λ v, 0 ≤ v ≤ 1) recall →
  ∃ ap, Metrics.average_precision precision recall = Some ap ∧ 0 ≤ ap ≤ M.
Proof. apply average_precision_bounded. Qed.

Lemma average_precision_bounds_witness :
  ∃ ap, Metrics.average_precision [1; qc 1 2] [qc 1 2; 1] = Some ap ∧
        0 ≤ ap ≤ 1.
Proof.
  apply (average_precision_bounds 1 [1; qc 1 2] [qc 1 2; 1]).
  - reflexivity.
  - apply (bool_decide_unpack _). vm_compute. reflexivity.
  - repeat constructor; apply (bool_decide_unpack _); vm_compute; reflexivity.
  - repeat constructor. apply (bool_decide_unpack _). vm_compute. reflexivity.
  - repeat constructor; apply (bool_decide_unpack _); vm_compute; reflexivity.
Defined.

(** ** The average precision of the curves the metric gives *)

Section ReportedAveragePrecision.
Import Metrics.

Lemma total_Permutation (x y : list Qc) : x ≡ₚ y → Spec.total x = Spec.total y.
Proof.
  induction 1 as [|v x y _ IH|v w x|x y z _ IH1 _ IH2].
  - done.
  - by rewrite !total_cons, IH.
  - rewrite !total_cons. ring.
  - by rewrite IH1.
Qed.

Lemma gather_top_k_total (scores flags tp' : list Qc) :
  length flags = length scores →
  gather flags (top_k scores).2 = Some tp' →
  Spec.total tp' = Spec.total flags.
Proof.
  intros Hlen Hg. rewrite gather_top_k in Hg by done. simplify_eq.
  apply total_Permutation.
  rewrite sort_desc_perm. by rewrite snd_zip by lia.
Qed.

Lemma half_bounds : 0 ≤ qc 1 2 ∧ qc 1 2 ≤ qc 1 2 ∧ 0 ≤ 0 ∧ (0 : Qc) ≤ qc 1 2.
Proof. split_and!; apply (bool_decide_unpack _); vm_compute; reflexivity. Qed.

Lemma total_nonneg (l : list Qc) : Forall (Qcle 0) l → 0 ≤ Spec.total l.
Proof.
  induction 1 as [|v l Hv _ IH]; [done|].
  rewrite total_cons. by apply Qcplus_nonneg_nonneg.
Qed.

Lemma total_take_le (k : nat) (l : list Qc) :
  Forall (Qcle 0) l → Spec.total (take k l) ≤ Spec.total l.
Proof.
  intros Hl. rewrite <- (take_drop k l) at 2. rewrite total_app.
  rewrite <- (Qcplus_0_r (Spec.total (take k l))) at 1.
  apply Qcplus_le_mono_l, total_nonneg. by apply Forall_drop.
Qed.

Lemma returned_average_precision_bounded (st rz : bool) (b : batch)
    (s s' : accumulators) (p r : list Qc) :
  update_op st rz b s = Some (s', (p, r)) →
  v_fp s' = v_tp s' → Spec.aligned s' →
  Forall (Qcle 0) (v_tp s') →
  Spec.total (v_tp s') ≤ Qc_of_Z (v_nobjects s') →
  ∃ ap, average_precision p r = Some ap ∧ 0 ≤ ap ≤ qc 1 2.
Proof.
  intros Hu Heq [Hal _] Hnn Htot.
  apply update_op_inv in Hu as (_ & tp' & fp' & Hk & Htp & Hfp & -> & ->).
  rewrite Heq, Htp in Hfp. simplify_eq.
  rewrite precision_of_equal_flags.
  pose proof (gather_top_k _ _ Hal) as Hfull.
  pose proof (gather_top_k_total _ _ _ Hal Hfull) as Htot'.
  pose proof (gather_Forall _ _ _ _ Hfull Hnn) as Hnn'.
  eapply gather_take in Hfull. rewrite Htp in Hfull. simplify_eq.
  set (full := (sort_desc (zip (v_scores s') (v_tp s'))).*2) in *.
  set (k := default (length (v_scores s')) (scores_op_size st rz b)) in *.
  assert (Hcut : Forall (Qcle 0) (take k full)) by (by apply Forall_take).
  pose proof (cumsum_from_bounds 0 (take k full) Hcut) as Hb.
  fold (cumsum (take k full)) in Hb.
  destruct half_bounds as (Hh1 & Hh2 & Hh3 & Hh4).
  apply average_precision_bounded.
  - by rewrite !length_fmap.
  - done.
  - apply Forall_fmap, Forall_forall. intros c _. simpl.
    case_decide; by split.
  - eapply Sorted_fmap; [|by apply cumsum_from_sorted].
    intros a c Hac. by apply safe_div_elem_mono.
  - apply Forall_fmap. eapply Forall_impl; [done|].
    intros c [Hc0 Hc1]. simpl. split.
    + by apply safe_div_elem_nonneg.
    + apply safe_div_elem_le_1. etrans; [done|].
      rewrite Qcplus_0_l. etrans; [by apply total_take_le|].
      by rewrite Htot'.
Qed.
End ReportedAveragePrecision.

(** X12: every update that leaves flags which are non-negative, aligned
    with the scores and no more in total than the ground-truth count
    returns a curve whose average precision is defined and lies between 0
    and 1/2: the false-positive array being the true-positive array, no
    update can return more.  The average precision of the value tensor,
    the empty curve, is 0. *)
Theorem reported_average_precision_at_most_half
    (static_shapes remove_zero_labels : bool) (bs : list Metrics.batch)
    (b : Metrics.batch) (s0 s : Metrics.accumulators) (p r : list Qc) :
  Metrics.run_updates static_shapes remove_zero_labels bs Metrics.initial
  = Some s0 →
  Metrics.update_op static_shapes remove_zero_labels b s0 = Some (s, (p, r)) →
  Spec.aligned s →
  Forall (Qcle 0) (Metrics.v_tp s) →
  Spec.total (Metrics.v_tp s) ≤ Qc_of_Z (Metrics.v_nobjects s) →
  (∃ ap, Metrics.average_precision p r = Some ap ∧ 0 ≤ ap ≤ qc 1 2) ∧
  Metrics.value_op s ≫= (λ c, Metrics.average_precision c.1 c.2) = Some 0.
Proof.
  intros Hrun Hu Hal Hnn Htot. split.
  - eapply returned_average_precision_bounded; [exact Hu| |done..].
    apply update_op_assigns in Hu.
    eapply assign_ops_fp_is_tp; [|exact Hu].
    by apply (run_updates_fp_is_tp static_shapes remove_zero_labels bs
                Metrics.initial s0).
  - rewrite value_op_empty. qc_eval.
Qed.

Lemma reported_average_precision_at_most_half_witness :
  ∃ s0 s p r ap,
    Metrics.run_updates true false [Examples.two_hits] Metrics.initial
    = Some s0 ∧
    Metrics.update_op true false Examples.tied_hit s0 = Some (s, (p, r)) ∧
    Metrics.average_precision p r = Some ap ∧ ap ≤ qc 1 2.
Proof.
  destruct (Metrics.run_updates true false [Examples.two_hits] Metrics.initial)
    as [s0|] eqn:Hs0; [|exfalso; vm_compute in Hs0; discriminate Hs0].
  assert (Hs0' := Hs0). vm_compute in Hs0'. injection Hs0' as Hs0'.
  destruct (Metrics.update_op true false Examples.tied_hit s0)
    as [[s [p r]]|] eqn:Hu;
    [|exfalso; rewrite <- Hs0' in Hu; vm_compute in Hu; discriminate Hu].
  assert (Hu' := Hu). rewrite <- Hs0' in Hu'. vm_compute in Hu'.
  injection Hu' as Hs' _ _.
  assert (Hal : Spec.aligned s) by (rewrite <- Hs'; split; reflexivity).
  assert (Hnn : Forall (Qcle 0) (Metrics.v_tp s)).
  { rewrite <- Hs'. repeat constructor;
      apply (bool_decide_unpack _); vm_compute; reflexivity. }
  assert (Htot : Spec.total (Metrics.v_tp s) ≤ Qc_of_Z (Metrics.v_nobjects s)).
  { rewrite <- Hs'. apply (bool_decide_unpack _). vm_compute. reflexivity. }
  destruct (reported_average_precision_at_most_half true false _ _ s0 s p r
              Hs0 Hu Hal Hnn Htot) as [(ap & Hap & _ & Hle) _].
  exists s0, s, p, r, ap. split; [reflexivity|]. split; [exact Hu|].
  split; [exact Hap|exact Hle].
Defined.

(** ** What [precision_recall_values] returns *)

Section PrecisionAtRecallValues.
Import Metrics.

(** The loop body for one target. *)
Lemma precision_at_all_below (x : Qc) (precision recall : list Qc) :
  length precision = length recall →
  Forall (λ r, r ≤ x) recall →
  elementwise Qcmult precision
    (cast_float <$> ((λ r, bool_decide (r ≤ x)) <$> recall))
  = Some precision.
Proof.
  intros Hlen Hall. rewrite elementwise_same by (by rewrite !length_fmap).
  f_equal. revert precision Hlen.
  induction Hall as [|r recall Hr _ IH]; intros [|p precision] Hlen;
    simplify_eq/=; [done|].
  rewrite bool_decide_eq_true_2 by done. simpl.
  by rewrite Qcmult_1_r, IH.
Qed.

Lemma precision_at_some_above (x : Qc) (precision recall : list Qc) :
  length precision = length recall →
  Forall (Qcle 0) precision →
  ¬ Forall (λ r, r ≤ x) recall →
  elementwise Qcmult precision
    (cast_float <$> ((λ r, bool_decide (r ≤ x)) <$> recall))
    ≫= (λ masked, Some (reduce_min masked))
  = Some (Value 0).
Proof.
  intros Hlen Hnn Hex.
  apply not_Forall_Exists in Hex; [|apply _].
  apply Exists_exists in Hex as (r & Hin & Hr).
  apply list_elem_of_lookup in Hin as [i Hi].
  pose proof (precision_recall_values_above x precision recall i r Hlen Hnn Hi
                (Qcnot_le_lt _ _ Hr)) as Hv.
  unfold precision_recall_values in Hv.
  apply mapM_Some, Forall2_cons_1 in Hv as [Hv _]. exact Hv.
Qed.

Lemma precision_recall_values_cases (xvals precision recall : list Qc) :
  length precision = length recall →
  Forall (Qcle 0) precision →
  precision_recall_values xvals precision recall
  = Some ((λ x, if decide (Forall (λ r, r ≤ x) recall)
                then reduce_min precision else Value 0) <$> xvals).
Proof.
  intros Hlen Hnn. unfold precision_recall_values.
  apply mapM_Some.
  induction xvals as [|x xvals IH]; [constructor|].
  rewrite fmap_cons. constructor; [|done]. case_decide as Hall.
  - by rewrite precision_at_all_below.
  - by apply precision_at_some_above.
Qed.

Lemma precision_recall_values_empty (xvals : list Qc) :
  precision_recall_values xvals [] []
  = Some (replicate (length xvals) Highest).
Proof.
  unfold precision_recall_values.
  apply mapM_Some. induction xvals as [|x xvals IH]; by constructor.
Qed.
End PrecisionAtRecallValues.

(** X13: for a curve of non-negative precisions, [precision_recall_values]
    returns one value per target, in the order of the targets: the minimum
    of all precisions when every recall is at most the target, and 0 as
    soon as one recall exceeds it. *)
Theorem precision_at_recall_is_min_or_zero (xvals precision recall : list Qc) :
  length precision = length recall →
  Forall (Qcle 0) precision →
  Metrics.precision_recall_values xvals precision recall
  = Some ((λ x, if decide (Forall (λ r, r ≤ x) recall)
                then Metrics.reduce_min precision else Metrics.Value 0)
            <$> xvals).
Proof. apply precision_recall_values_cases. Qed.

Lemma precision_at_recall_is_min_or_zero_witness :
  Metrics.precision_recall_values [qc 1 10; 1] [qc 1 2; qc 1 4] [qc 1 2; 1]
  = Some [Metrics.Value 0; Metrics.Value (qc 1 4)].
Proof.
  rewrite (precision_at_recall_is_min_or_zero [qc 1 10; 1] [qc 1 2; qc 1 4]
             [qc 1 2; 1] eq_refl).
  - apply (bool_decide_unpack _). vm_compute. reflexivity.
  - repeat constructor; apply (bool_decide_unpack _); vm_compute; reflexivity.
Defined.

(** X14: on the empty curve, which is the value of the metric before the
    first update, every requested recall level gets the identity of the
    minimum, not 0. *)
Theorem precision_at_recall_of_empty_curve (xvals : list Qc) :
  Metrics.value_op Metrics.initial = Some ([], []) ∧
  Metrics.precision_recall_values xvals [] []
  = Some (replicate (length xvals) Metrics.Highest).
Proof. split; [apply value_op_empty|apply precision_recall_values_empty]. Qed.

(** ** How [main] fails *)

(** X15: an empty dataset directory is treated like an absent one: [main]
    raises the same error at once and produces no event, whatever has
    happened before. *)
Theorem main_rejects_empty_dataset_dir
    (get_dataset : string → string → string → result Z)
    (get_network : string → result unit)
    (is_directory : string → bool) (latest_checkpoint : string → string)
    (FLAGS : EvalSSD.flags) (tr : list EvalSSD.event) :
  EvalSSD.dataset_dir FLAGS = Some EmptyString →
  EvalSSD.main get_dataset get_network is_directory latest_checkpoint FLAGS tr
  = (tr, inl (ValueError
       "You must supply the dataset directory with --dataset_dir")).
Proof. intros H. apply main_without_dataset_dir. by rewrite H. Qed.

Lemma main_rejects_empty_dataset_dir_witness :
  EvalSSD.main (λ _ _ _, inr 950%Z) (λ _, inr tt) (λ _, true) (λ p, p)
    (EvalSSD.Flags 21 100 None EmptyString "/tmp/tfmodel/" "/tmp/tfmodel/" 4
       "pascalvoc_2007" "test" (Some EmptyString) 0 "ssd_300_vgg" None None
       None) []
  = ([], inl (ValueError
       "You must supply the dataset directory with --dataset_dir")).
Proof. apply main_rejects_empty_dataset_dir. reflexivity. Defined.

(** X16: the preprocessing name is the [preprocessing_name] flag when it is
    given and not empty, else the model name; when the factory does not
    know it, [main] raises the factory's error after the dataset and the
    network have been obtained and before any provider, batch, metric or
    evaluation is set up. *)
Theorem main_fails_on_unknown_preprocessing
    (get_dataset : string → string → string → result Z)
    (get_network : string → result unit)
    (is_directory : string → bool) (latest_checkpoint : string → string)
    (FLAGS : EvalSSD.flags) (dir : string) (num_samples : Z) :
  EvalSSD.dataset_dir FLAGS = Some dir → dir ≠ EmptyString →
  get_dataset (EvalSSD.dataset_name FLAGS) (EvalSSD.dataset_split_name FLAGS)
    dir = inr num_samples →
  get_network (EvalSSD.model_name FLAGS) = inr tt →
  Spec.resolved_preprocessing_name FLAGS
    ∉ dom PreprocessingFactory.preprocessing_fn_map →
  EvalSSD.main get_dataset get_network is_directory latest_checkpoint FLAGS []
  = ([EvalSSD.SetVerbosity; EvalSSD.GlobalStep;
      EvalSSD.GetDataset (EvalSSD.dataset_name FLAGS)
        (EvalSSD.dataset_split_name FLAGS) dir;
      EvalSSD.GetNetwork (EvalSSD.model_name FLAGS);
      EvalSSD.GetPreprocessing (Spec.resolved_preprocessing_name FLAGS)],
     inl (ValueError (PreprocessingFactory.not_recognized
                        (Spec.resolved_preprocessing_name FLAGS)))).
Proof. apply main_unknown_preprocessing_name. Qed.

Lemma main_fails_on_unknown_preprocessing_witness :
  (EvalSSD.main (λ _ _ _, inr 950%Z) (λ _, inr tt) (λ _, true) (λ p, p)
     (EvalSSD.Flags 21 100 None EmptyString "/tmp/tfmodel/" "/tmp/tfmodel/" 4
        "pascalvoc_2007" "test" (Some "/data/voc") 0 "ssd_512_vgg" None None
        None) []).2
  = inl (ValueError "Preprocessing name [ssd_512_vgg] was not recognized").
Proof.
  rewrite (main_fails_on_unknown_preprocessing _ _ _ _ _ "/data/voc" 950).
  - reflexivity.
  - reflexivity.
  - discriminate.
  - reflexivity.
  - reflexivity.
  - intros H. apply elem_of_dom in H. destruct H as [x H].
    vm_compute in H. discriminate H.
Defined.

(** X18: for every preprocessing name the factory knows, [main] raises
    [TypeError] at the call of the preprocessing function, which is given
    four positional arguments and takes three: the dataset, the network,
    the preprocessing function and the data provider have been obtained,
    and no batch, network output, metric or evaluation is set up. *)
Theorem main_raises_at_preprocessing_call
    (get_dataset : string → string → string → result Z)
    (get_network : string → result unit)
    (is_directory : string → bool) (latest_checkpoint : string → string)
    (FLAGS : EvalSSD.flags) (dir : string) (num_samples : Z) :
  EvalSSD.dataset_dir FLAGS = Some dir → dir ≠ EmptyString →
  get_dataset (EvalSSD.dataset_name FLAGS) (EvalSSD.dataset_split_name FLAGS)
    dir = inr num_samples →
  get_network (EvalSSD.model_name FLAGS) = inr tt →
  Spec.resolved_preprocessing_name FLAGS
    ∈ dom PreprocessingFactory.preprocessing_fn_map →
  EvalSSD.main get_dataset get_network is_directory latest_checkpoint FLAGS []
  = ([EvalSSD.SetVerbosity; EvalSSD.GlobalStep;
      EvalSSD.GetDataset (EvalSSD.dataset_name FLAGS)
        (EvalSSD.dataset_split_name FLAGS) dir;
      EvalSSD.GetNetwork (EvalSSD.model_name FLAGS);
      EvalSSD.GetPreprocessing (Spec.resolved_preprocessing_name FLAGS);
      EvalSSD.DataProvider (2 * EvalSSD.batch_size FLAGS)
        (EvalSSD.batch_size FLAGS)],
     inl TypeError).
Proof. apply main_type_error. Qed.

Lemma main_raises_at_preprocessing_call_witness :
  (EvalSSD.main (λ _ _ _, inr 0%Z) (λ _, inr tt) (λ _, true) (λ p, p)
     (Examples.flags_with_max None) []).2
  = inl TypeError.
Proof.
  rewrite (main_raises_at_preprocessing_call (λ _ _ _, inr 0%Z) (λ _, inr tt)
             (λ _, true) (λ p, p) (Examples.flags_with_max None)
             "/data/voc" 0).
  - reflexivity.
  - reflexivity.
  - discriminate.
  - reflexivity.
  - reflexivity.
  - apply elem_of_dom. eexists. vm_compute. reflexivity.
Defined.

(** ** What the two tensors of the metric hold *)

(** X19: an update whose assignments leave aligned variables returns the
    curve over all the accumulated detections, one point per detection;
    with static shapes and [remove_zero_labels] disabled it returns only
    the first ranks of that curve, as many as the batch just fed has
    scores. *)
Theorem update_returns_accumulated_curve
    (static_shapes remove_zero_labels : bool) (b : Metrics.batch)
    (s s' : Metrics.accumulators) :
  Metrics.assign_ops static_shapes remove_zero_labels b s = Some s' →
  Spec.aligned s' →
  ∃ p r,
    Spec.accumulated_curve s' = Some (p, r) ∧
    length p = length (Metrics.v_scores s') ∧
    length r = length (Metrics.v_scores s') ∧
    Metrics.update_op static_shapes remove_zero_labels b s
    = Some (s', if static_shapes && negb remove_zero_labels
                then (take (length (Metrics.rscores b)) p,
                      take (length (Metrics.rscores b)) r)
                else (p, r)).
Proof.
  intros Ha Hs'.
  destruct (update_op_aligned _ _ _ _ _ Ha Hs') as (p & r & Hc & Hu).
  exists p, r. split; [done|].
  pose proof Hc as Hc'. rewrite accumulated_curve_sorted in Hc' by done.
  destruct Hs' as [Htp Hfp].
  assert (Hlen : ∀ flags : list Qc,
            length flags = length (Metrics.v_scores s') →
            length (Metrics.cumsum
                      (Metrics.sort_desc (zip (Metrics.v_scores s') flags)).*2)
            = length (Metrics.v_scores s')).
  { intros flags Hf. unfold Metrics.cumsum.
    rewrite length_cumsum_from, length_fmap, length_sort_desc,
      length_zip_with. lia. }
  simplify_eq. split_and!.
  - rewrite !length_zip_with, !Hlen by done. lia.
  - by rewrite length_fmap, Hlen.
  - rewrite Hu. unfold Metrics.scores_op_size, Metrics.reshape_flat.
    by destruct (static_shapes && negb remove_zero_labels).
Qed.

Lemma update_returns_accumulated_curve_witness :
  ∃ s0 s,
    Metrics.assign_ops true false Examples.two_hits Metrics.initial = Some s0 ∧
    Metrics.assign_ops true false Examples.tied_hit s0 = Some s ∧
    Spec.accumulated_curve s
    = Some ([qc 1 2; qc 1 2; qc 1 2], [qc 1 3; qc 2 3; 1]) ∧
    snd <$> Metrics.update_op true false Examples.tied_hit s0
    = Some ([qc 1 2], [qc 1 3]).
Proof.
  set (s0 := Spec.appended Metrics.initial Examples.two_hits).
  set (s := Spec.appended s0 Examples.tied_hit).
  exists s0, s. split; [reflexivity|]. split; [reflexivity|].
  split; [qc_eval|].
  assert (Hal : Spec.aligned s) by (split; reflexivity).
  destruct (update_returns_accumulated_curve true false Examples.tied_hit
              s0 s eq_refl Hal) as (p & r & Hc & _ & _ & Hu).
  rewrite Hu. simpl.
  assert (Hpr : Some (p, r)
                = Some ([qc 1 2; qc 1 2; qc 1 2], [qc 1 3; qc 2 3; 1])).
  { rewrite <- Hc. qc_eval. }
  injection Hpr as -> ->. reflexivity.
Defined.

(** X20: the value tensor of the metric is the empty curve in every state
    of the variables, whatever has been accumulated; read through
    [precision_recall_values] it gives the identity of the minimum at every
    recall level, and through [average_precision] it gives 0. *)
Theorem value_tensor_is_always_empty
    (s : Metrics.accumulators) (xvals : list Qc) :
  Metrics.value_op s = Some ([], []) ∧
  Metrics.value_op s
    ≫= (λ c, Metrics.precision_recall_values xvals c.1 c.2)
  = Some (replicate (length xvals) Metrics.Highest) ∧
  Metrics.value_op s ≫= (λ c, Metrics.average_precision c.1 c.2) = Some 0.
Proof.
  rewrite value_op_empty. split_and!; [done| |qc_eval].
  apply precision_recall_values_empty.
Qed.

(** ** Instances of the equivalences *)


Lemma update_shape_checks_witness :
  is_Some (Metrics.assign_ops false true
             (Metrics.Batch [1%Z] [1%Z; 0%Z] [qc 1 2] [1; 0; 0] [0; 0])
             Metrics.initial) ∧
  ¬ is_Some (Metrics.assign_ops false true Examples.short_scores
               Metrics.initial).
Proof.
  split.
  - apply (proj1 (proj2 (update_shape_checks _ Metrics.initial))).
    split; intros [|[|i]] c Hi Hc; simplify_eq/=; lia.
  - intros H.
    apply (proj1 (proj2 (update_shape_checks _ Metrics.initial))) in H
      as [H _].
    specialize (H 1%nat 1%Z eq_refl eq_refl). simpl in H. lia.
Defined.

Lemma update_appends_positive_classes_witness :
  ∃ s', Metrics.assign_ops false true
          (Metrics.Batch [1%Z] [3%Z; (-1)%Z; 0%Z] [qc 1 2; qc 1 3; qc 1 4]
             [1; 0; 0] [0; 1; 1]) Metrics.initial = Some s' ∧
        length (Metrics.v_scores s') = 1%nat.
Proof.
  destruct (Metrics.assign_ops false true
              (Metrics.Batch [1%Z] [3%Z; (-1)%Z; 0%Z] [qc 1 2; qc 1 3; qc 1 4]
                 [1; 0; 0] [0; 1; 1]) Metrics.initial) as [s'|] eqn:Ha.
  - exists s'. split; [reflexivity|].
    exact (proj1 (update_appends_positive_classes false _ Metrics.initial s')
             Ha).
  - exfalso. vm_compute in Ha. discriminate Ha.
Defined.

Lemma average_precision_shape_error_witness :
  Metrics.average_precision [1; qc 1 2] [1] = None.
Proof.
  apply (proj2 (average_precision_shape_error [1; qc 1 2] [1])).
  split; [simpl; lia|]. split; discriminate.
Defined.
